(** * The scoring-rule engine of [scoring_rules.py]

    A shallow embedding of [src/static/sourcecode/scoring_rules.py]: the rule
    identities, the [ScoringRule] interface with its three variants
    ([DefaultRule], [RuleFromFunction], [FilterTagOutliers]) and the executor
    [apply_scoring_rules], followed by the properties of the engine.

    Data frames are modelled row-wise and typed by their use:
    - [noteStats] is a [list note]; a note carries its id (an [int64], here
      [Z]) and its numeric columns, read by column name;
    - [noteLabels] and [noteRules] are lists of rows [(noteId, text)];
    - supplemental columns are a [frame]: the names of the columns other than
      the id column, and rows [(noteId, cells)];
    - numeric cells are IEEE binary64 floats ([PrimFloat]), compared with the
      primitive comparisons, so every comparison with NaN is false as in
      numpy.

    The modules [constants] and [tag_filter] are imported by the source but
    are not part of it; they are parameters of the development ([c] and
    [tag_filter] below), as records of the names the source reads from them. *)

From Stdlib Require Import ZArith Floats.
From stdpp Require Import base decidable countable list strings gmap sorting.

(** ** Rule identity *)

(** [RuleAndVersion = namedtuple("RuleAndVersion", ["ruleName", "ruleVersion"])] *)
Record RuleAndVersion := {
  ruleName : string;
  ruleVersion : string;
}.

(** [class RuleID(Enum)] *)
Inductive RuleID :=
| INITIAL_NMR
| GENERAL_CRH
| GENERAL_CRNH
| TAG_OUTLIER.

(** [RuleID.<member>.value] *)
Definition value (r : RuleID) : RuleAndVersion :=
  match r with
  | INITIAL_NMR => {| ruleName := "InitialNMR"; ruleVersion := "1.0" |}
  | GENERAL_CRH => {| ruleName := "GeneralCRH"; ruleVersion := "1.0" |}
  | GENERAL_CRNH => {| ruleName := "GeneralCRNH"; ruleVersion := "1.0" |}
  | TAG_OUTLIER => {| ruleName := "TagFilter"; ruleVersion := "1.0" |}
  end.

#[global] Instance RuleID_eq_dec : EqDecision RuleID.
Proof. solve_decision. Defined.

Definition RuleID_code (r : RuleID) : nat :=
  match r with
  | INITIAL_NMR => 0
  | GENERAL_CRH => 1
  | GENERAL_CRNH => 2
  | TAG_OUTLIER => 3
  end.

Definition RuleID_decode (n : nat) : option RuleID :=
  match n with
  | 0 => Some INITIAL_NMR
  | 1 => Some GENERAL_CRH
  | 2 => Some GENERAL_CRNH
  | 3 => Some TAG_OUTLIER
  | _ => None
  end.

Definition RuleID_decode_code (r : RuleID) :
  RuleID_decode (RuleID_code r) = Some r :=
  match r with
  | INITIAL_NMR => eq_refl
  | GENERAL_CRH => eq_refl
  | GENERAL_CRNH => eq_refl
  | TAG_OUTLIER => eq_refl
  end.

#[global] Instance RuleID_countable : Countable RuleID :=
  inj_countable RuleID_code RuleID_decode RuleID_decode_code.

(** ** The imported modules *)

(** The names read from [import constants as c]. *)
Record constants := {
  noteIdKey : string;
  ratingStatusKey : string;
  activeRulesKey : string;
  activeFilterTagsKey : string;
  noteInterceptKey : string;
  currentlyRatedHelpful : string;
  currentlyRatedNotHelpful : string;
  needsMoreRatings : string;
  adjustedSuffix : string;
  ratioSuffix : string;
  notHelpfulTagsTSVOrder : list string;
  notHelpfulHardToUnderstandKey : string;
  notHelpfulNoteNotNeededKey : string;
}.

(** ** Tables *)

(** A row of [noteStats]: [noteStats[c.noteIdKey]] is [note_id], and
    [noteStats[col]] for a numeric column [col] is [note_num _ col]. *)
Record note := {
  note_id : Z;
  note_num : string → float;
}.

(** A cell of a supplemental column. A missing value is the float NaN. *)
Inductive cell :=
| CellStr (s : string)
| CellFloat (x : float)
| CellInt (z : Z).

Definition NaN : cell := CellFloat PrimFloat.nan.

(** A frame keyed by the id column: [frame_columns] are the names of its
    other columns, and each row holds one cell per such column. *)
Record frame := {
  frame_columns : list string;
  frame_rows : list (Z * list cell);
}.

(** The frame's [columns], id column included. *)
Definition columns (c : constants) (f : frame) : list string :=
  noteIdKey c :: frame_columns f.

(** A row of the returned [scoredNotes]. *)
Record scored_note := {
  sn_note : note;
  sn_ratingStatus : string;
  sn_activeRules : string;
  sn_columns : list cell;
  sn_currentlyRatedHelpfulBool : bool;
  sn_currentlyRatedNotHelpfulBool : bool;
  sn_awaitingMoreRatingsBool : bool;
}.

Record scored_frame := {
  scored_columns : list string;
  scored_rows : list scored_note;
}.

(** The import [tag_filter]: [get_tag_thresholds(crhStats, percentile)]
    returns a mapping from column name to threshold. *)
Record tag_filter_module := {
  get_tag_thresholds : list note → Z → string → float;
}.

(** ** Comparisons of float64 values *)

(** [x > y] *)
Definition float_gt (x y : float) : bool := PrimFloat.ltb y x.
(** [x < y] *)
Definition float_lt (x y : float) : bool := PrimFloat.ltb x y.
(** [x >= y], used in statements only *)
Definition float_ge (x y : float) : bool := PrimFloat.leb y x.

(** ** Data-frame operations *)

(** [set(series)] *)
Definition id_set (ids : list Z) : gset Z := list_to_set ids.

(** [series.drop_duplicates()]: the first occurrence of each value is kept. *)
Definition drop_duplicates (ids : list Z) : list Z :=
  fold_left (λ acc x, if decide (x ∈ acc) then acc else acc ++ [x]) ids [].

(** [df.groupby(c.noteIdKey).tail(1)]: the last row of every id, in the
    order of the frame. *)
Fixpoint groupby_tail1 {V} (rows : list (Z * V)) : list (Z * V) :=
  match rows with
  | [] => []
  | r :: rest =>
      if decide (r.1 ∈ rest.*1) then groupby_tail1 rest
      else r :: groupby_tail1 rest
  end.

(** The group keys of a [groupby] or of an outer [merge]: the distinct ids,
    ascending. *)
Definition group_keys (ids : list Z) : list Z :=
  merge_sort Z.le (remove_dups ids).

(** The rows of a keyed frame with id [k], in order, without the id. *)
Definition rows_with_key {V} (k : Z) (rows : list (Z * V)) : list V :=
  (filter (λ r, r.1 = k) rows).*2.

(** [df.groupby(c.noteIdKey).aggregate(list).reset_index()] *)
Definition groupby_aggregate_list {V} (rows : list (Z * V)) : list (Z * list V) :=
  fmap (λ k, (k, rows_with_key k rows)) (group_keys rows.*1).

(** [[",".join(xs) for xs in df[col]]] after [groupby_aggregate_list] *)
Definition join_column (rows : list (Z * list string)) : list (Z * string) :=
  fmap (λ g, (g.1, String.concat "," g.2)) rows.

(** [left.merge(right, on=c.noteIdKey, how="inner")]: the rows come in the
    order of the left frame. (When the left frame repeats an id, some pandas
    versions group the rows of one id together; the statements about the
    order of the rows are made for frames with pairwise distinct ids.) *)
Definition merge_inner {A B} (key : A → Z) (left : list A)
    (right : list (Z * B)) : list (A * B) :=
  left ≫= λ a, fmap (λ b, (a, b)) (rows_with_key (key a) right).

(** The right-hand side of a row that has no partner is filled with
    [missing]. *)
Definition or_missing {B} (missing : B) (bs : list B) : list B :=
  match bs with
  | [] => [missing]
  | _ => bs
  end.

(** [left.merge(right, on=c.noteIdKey, how="left")]. The cells of the right
    frame are kept as they are: the change of an integer column to floats
    when a missing row is filled is not modelled. *)
Definition merge_left {A B} (key : A → Z) (missing : B) (left : list A)
    (right : list (Z * B)) : list (A * B) :=
  left ≫= λ a, fmap (λ b, (a, b)) (or_missing missing (rows_with_key (key a) right)).

Definition nan_row (cols : list string) : list cell :=
  replicate (length cols) NaN.

(** [left.merge(right, on=c.noteIdKey, how="outer")], with the ids in
    ascending order (some pandas versions keep the order of the left keys
    instead); nothing below depends on the order of these rows, which are
    looked up by id. *)
Definition merge_outer (left right : frame) : frame :=
  {| frame_columns := frame_columns left ++ frame_columns right;
     frame_rows :=
       group_keys ((frame_rows left).*1 ++ (frame_rows right).*1) ≫= λ k,
         or_missing (nan_row (frame_columns left)) (rows_with_key k (frame_rows left)) ≫= λ l,
           fmap (λ r, (k, l ++ r))
               (or_missing (nan_row (frame_columns right))
                           (rows_with_key k (frame_rows right))) |}.

(** [df.loc[mask]] for a boolean mask: the mask has to cover the frame. *)
Definition loc_mask {A} (df : list A) (mask : list bool) : option (list A) :=
  if decide (length mask = length df)
  then Some (filter (λ p, p.2 = true) (zip df mask)).*1
  else None.

(** ** Scoring rules *)

(** [class ScoringRule(ABC)]: the fields set by [__init__] and the abstract
    method. [score_notes noteStats currentLabels] is [None] when the call
    raises, and otherwise the pair (note ids, optional frame of new columns). *)
Record ScoringRule := {
  _ruleID : RuleID;
  _status : string;
  _dependencies : gset RuleID;
  score_notes : list note → list (Z * string) → option (list Z * option frame);
}.

Definition get_rule_id (rule : ScoringRule) : RuleID := _ruleID rule.

(** [f"{ruleName} (v{ruleVersion})"] *)
Definition get_name (rule : ScoringRule) : string :=
  ruleName (value (_ruleID rule)) +:+ " (v" +:+ ruleVersion (value (_ruleID rule)) +:+ ")".

Definition get_status (rule : ScoringRule) : string := _status rule.

(** [assert not (self._dependencies - priorRules)]: [true] when the assertion
    passes. *)
Definition check_dependencies (rule : ScoringRule) (priorRules : gset RuleID) : bool :=
  bool_decide (_dependencies rule ∖ priorRules = ∅).

(** [class DefaultRule] *)
Definition DefaultRule (ruleID : RuleID) (status : string)
    (dependencies : gset RuleID) : ScoringRule :=
  {| _ruleID := ruleID;
     _status := status;
     _dependencies := dependencies;
     score_notes := λ noteStats _, Some (fmap note_id noteStats, None) |}.

(** [class RuleFromFunction] *)
Definition RuleFromFunction (ruleID : RuleID) (status : string)
    (dependencies : gset RuleID) (function : list note → list bool) : ScoringRule :=
  {| _ruleID := ruleID;
     _status := status;
     _dependencies := dependencies;
     score_notes := λ noteStats _,
       match loc_mask noteStats (function noteStats) with
       | Some rows => Some (fmap note_id rows, None)
       | None => None
       end |}.

Section TagFilter.
Context (c : constants) (tag_filter : tag_filter_module).

(** [crhStats]: [noteStats] pruned to the notes currently labelled CRH. *)
Definition crhStats (noteStats : list note) (currentLabels : list (Z * string)) : list note :=
  let crhNotes :=
    fmap (λ r, (r.1, tt)) (filter (λ r, r.2 = currentlyRatedHelpful c) currentLabels) in
  (merge_inner note_id noteStats crhNotes).*1.

Definition is_exempt (tag : string) : bool :=
  bool_decide (tag = notHelpfulHardToUnderstandKey c ∨ tag = notHelpfulNoteNotNeededKey c).

(** The row filter inside the loop over the tags. *)
Definition tag_triggers (minAdjustedTotal crhSuperThreshold : float)
    (thresholds : string → float) (tag : string) (r : note) : bool :=
  let adjustedColumn := tag +:+ adjustedSuffix c in
  let adjustedRatioColumn := adjustedColumn +:+ ratioSuffix c in
  float_gt (note_num r adjustedColumn) minAdjustedTotal
  && float_gt (note_num r adjustedRatioColumn) (thresholds adjustedRatioColumn)
  && float_lt (note_num r (noteInterceptKey c)) crhSuperThreshold.

(** [impactedNotes] after the loop [for tag in c.notHelpfulTagsTSVOrder]:
    one row (note id, tag) per triggered pair. *)
Definition impacted_pairs (tagRatioPercentile : Z)
    (minAdjustedTotal crhSuperThreshold : float)
    (noteStats : list note) (currentLabels : list (Z * string)) : list (Z * string) :=
  let crh := crhStats noteStats currentLabels in
  let thresholds := get_tag_thresholds tag_filter crh tagRatioPercentile in
  fold_left
    (λ impactedNotes tag,
       if is_exempt tag then impactedNotes
       else
         let tagFilteredNotes :=
           fmap note_id
             (filter (λ r, tag_triggers minAdjustedTotal crhSuperThreshold thresholds tag r = true)
                     crh) in
         impactedNotes ++ fmap (λ i, (i, tag)) tagFilteredNotes)
    (notHelpfulTagsTSVOrder c) [].

(** [FilterTagOutliers.score_notes] *)
Definition FilterTagOutliers_score_notes (tagRatioPercentile : Z)
    (minAdjustedTotal crhSuperThreshold : float)
    (noteStats : list note) (currentLabels : list (Z * string))
    : option (list Z * option frame) :=
  let impactedNotes :=
    impacted_pairs tagRatioPercentile minAdjustedTotal crhSuperThreshold
                   noteStats currentLabels in
  let impactedNotes := join_column (groupby_aggregate_list impactedNotes) in
  Some (drop_duplicates impactedNotes.*1,
        Some {| frame_columns := [activeFilterTagsKey c];
                frame_rows := fmap (λ r, (r.1, [CellStr r.2])) impactedNotes |}).

(** [class FilterTagOutliers] *)
Definition FilterTagOutliers (ruleID : RuleID) (status : string)
    (dependencies : gset RuleID) (tagRatioPercentile : Z)
    (minAdjustedTotal crhSuperThreshold : float) : ScoringRule :=
  {| _ruleID := ruleID;
     _status := status;
     _dependencies := dependencies;
     score_notes :=
       FilterTagOutliers_score_notes tagRatioPercentile minAdjustedTotal crhSuperThreshold |}.

End TagFilter.

(** ** The rule engine *)

(** One call of a rule's [score_notes] by the engine, with what it returned
    ([None]: the call raised). *)
Record call := {
  call_rule : ScoringRule;
  call_result : option (list Z * option frame);
}.

(** The local variables of [apply_scoring_rules] that the loop carries, and
    the history of the calls of [score_notes] made so far (oldest first; the
    history is not a variable of the source, it records the order of its
    calls). *)
Record run_state := {
  noteLabels : list (Z * string);
  noteRules : list (Z * string);
  noteColumns : frame;
  ruleIDs : gset RuleID;
  calls : list call;
}.

(** The places at which a run can abort. *)
Inductive failure :=
| UnmetDependencies        (* assert in check_dependencies *)
| RepeatedRuleID           (* assert rule.get_rule_id() not in ruleIDs *)
| ScoreNotesRaised         (* the rule's score_notes raised *)
| SupplementalIdMismatch   (* assert set(activeNotes) == set(additionalColumns[noteId]) *)
| ColumnCollision          (* assert {noteId} == columns & columns *)
| LabelsIncomplete         (* assert set(noteStats ids) == set(noteLabels ids) *)
| RulesIncomplete          (* assert set(noteStats ids) == set(noteRules ids) *)
| ColumnsOutsideInput      (* assert len(set(noteColumns ids) - set(noteStats ids)) == 0 *)
| RowCountMismatch.        (* assert len(scoredNotes) == len(noteStats) *)

(** A run either completes with a value or aborts; an abort keeps the state
    the variables had when the exception was raised. *)
Inductive outcome (A : Type) :=
| Done (a : A)
| Fatal (why : failure) (st : run_state).
Arguments Done {A} a.
Arguments Fatal {A} why st.

Definition initial_state : run_state :=
  {| noteLabels := [];
     noteRules := [];
     noteColumns := {| frame_columns := []; frame_rows := [] |};
     ruleIDs := ∅;
     calls := [] |}.

(** [ruleIDs.add(rule.get_rule_id())], followed by the call of [score_notes]
    whose result is [result]. *)
Definition enter_rule (rule : ScoringRule) (result : option (list Z * option frame))
    (st : run_state) : run_state :=
  {| noteLabels := noteLabels st;
     noteRules := noteRules st;
     noteColumns := noteColumns st;
     ruleIDs := ruleIDs st ∪ {[get_rule_id rule]};
     calls := calls st ++ [{| call_rule := rule; call_result := result |}] |}.

(** The updates of [noteLabels] and [noteRules] for the matched notes. *)
Definition merge_labels (rule : ScoringRule) (activeNotes : list Z)
    (st : run_state) : run_state :=
  {| noteLabels :=
       groupby_tail1 (noteLabels st ++ fmap (λ i, (i, get_status rule)) activeNotes);
     noteRules := noteRules st ++ fmap (λ i, (i, get_name rule)) activeNotes;
     noteColumns := noteColumns st;
     ruleIDs := ruleIDs st;
     calls := calls st |}.

Definition set_noteColumns (cols : frame) (st : run_state) : run_state :=
  {| noteLabels := noteLabels st;
     noteRules := noteRules st;
     noteColumns := cols;
     ruleIDs := ruleIDs st;
     calls := calls st |}.

Definition set_noteRules (rows : list (Z * string)) (st : run_state) : run_state :=
  {| noteLabels := noteLabels st;
     noteRules := rows;
     noteColumns := noteColumns st;
     ruleIDs := ruleIDs st;
     calls := calls st |}.

(** [set(activeNotes) == set(additionalColumns[c.noteIdKey])], checked only
    when [additionalColumns is not None]. *)
Definition supplemental_ids_ok (activeNotes : list Z)
    (additionalColumns : option frame) : bool :=
  match additionalColumns with
  | None => true
  | Some add => bool_decide (id_set activeNotes = id_set (frame_rows add).*1)
  end.

Section Engine.
Context (c : constants).

(** [{c.noteIdKey} == (set(noteColumns.columns) & set(additionalColumns.columns))] *)
Definition columns_ok (noteColumns additionalColumns : frame) : bool :=
  bool_decide (({[noteIdKey c]} : gset string)
               = list_to_set (columns c noteColumns) ∩ list_to_set (columns c additionalColumns)).

(** The body of the loop [for rule in rules]. *)
Definition apply_rule (noteStats : list note) (st : run_state)
    (rule : ScoringRule) : outcome run_state :=
  if negb (check_dependencies rule (ruleIDs st)) then Fatal UnmetDependencies st
  else if bool_decide (get_rule_id rule ∈ ruleIDs st) then Fatal RepeatedRuleID st
  else
    let result := score_notes rule noteStats (noteLabels st) in
    let st := enter_rule rule result st in
    match result with
    | None => Fatal ScoreNotesRaised st
    | Some (activeNotes, additionalColumns) =>
        if negb (supplemental_ids_ok activeNotes additionalColumns)
        then Fatal SupplementalIdMismatch st
        else
          let st := merge_labels rule activeNotes st in
          match additionalColumns with
          | None => Done st
          | Some add =>
              if columns_ok (noteColumns st) add
              then Done (set_noteColumns (merge_outer (noteColumns st) add) st)
              else Fatal ColumnCollision st
          end
    end.

(** The loop. *)
Fixpoint run_rules (noteStats : list note) (rules : list ScoringRule)
    (st : run_state) : outcome run_state :=
  match rules with
  | [] => Done st
  | rule :: rest =>
      match apply_rule noteStats st rule with
      | Done st' => run_rules noteStats rest st'
      | Fatal why st' => Fatal why st'
      end
  end.

(** A row of [scoredNotes] with its three boolean columns. *)
Definition scored_note_of (row : note * string * string * list cell) : scored_note :=
  let '(n, ratingStatus, activeRules, cells) := row in
  {| sn_note := n;
     sn_ratingStatus := ratingStatus;
     sn_activeRules := activeRules;
     sn_columns := cells;
     sn_currentlyRatedHelpfulBool := bool_decide (ratingStatus = currentlyRatedHelpful c);
     sn_currentlyRatedNotHelpfulBool := bool_decide (ratingStatus = currentlyRatedNotHelpful c);
     sn_awaitingMoreRatingsBool := bool_decide (ratingStatus = needsMoreRatings c) |}.

(** The three merges that form [scoredNotes]. *)
Definition merge_results (noteStats : list note) (st : run_state)
    : list (note * string * string * list cell) :=
  let scoredNotes := merge_inner note_id noteStats (noteLabels st) in
  let scoredNotes := merge_inner (λ r, note_id r.1) scoredNotes (noteRules st) in
  merge_left (λ r, note_id r.1.1) (nan_row (frame_columns (noteColumns st)))
             scoredNotes (frame_rows (noteColumns st)).

(** The part of [apply_scoring_rules] after the loop. The columns of the
    rule frames are taken to be named unlike the columns of the input and
    unlike [ratingStatus] and [activeRules]: pandas renames columns that
    clash in the last merge, after which reading the status column raises;
    this is not modelled. *)
Definition finish (noteStats : list note) (st : run_state) : outcome scored_frame :=
  let st := set_noteRules (join_column (groupby_aggregate_list (noteRules st))) st in
  let ids := id_set (fmap note_id noteStats) in
  if negb (bool_decide (ids = id_set (noteLabels st).*1)) then Fatal LabelsIncomplete st
  else if negb (bool_decide (ids = id_set (noteRules st).*1)) then Fatal RulesIncomplete st
  else if negb (bool_decide (size (id_set (frame_rows (noteColumns st)).*1 ∖ ids) = 0%nat))
  then Fatal ColumnsOutsideInput st
  else
    let scoredNotes := merge_results noteStats st in
    if negb (bool_decide (length scoredNotes = length noteStats))
    then Fatal RowCountMismatch st
    else Done {| scored_columns := frame_columns (noteColumns st);
                 scored_rows := fmap scored_note_of scoredNotes |}.

(** [apply_scoring_rules] *)
Definition apply_scoring_rules (noteStats : list note) (rules : list ScoringRule)
    : outcome scored_frame :=
  match run_rules noteStats rules initial_state with
  | Done st => finish noteStats st
  | Fatal why st => Fatal why st
  end.

End Engine.

(** ** Notions used in the statements *)

(** The cell of id [k] in a keyed frame ([d] when the id is absent). *)
Definition get_key {V} (d : V) (k : Z) (rows : list (Z * V)) : V :=
  default d (head (rows_with_key k rows)).

(** The state in which a run of the loop ended, completed or aborted. *)
Definition last_state (o : outcome run_state) : run_state :=
  match o with
  | Done st => st
  | Fatal _ st => st
  end.

(** What the caller observes of a run: the value, or the reason of the abort. *)
Definition result_of {A} (o : outcome A) : A + failure :=
  match o with
  | Done a => inl a
  | Fatal why _ => inr why
  end.

(** The note ids a call of [score_notes] returned. *)
Definition matched (cl : call) : list Z :=
  match call_result cl with
  | Some (activeNotes, _) => activeNotes
  | None => []
  end.

(** The names of the supplemental columns a call of [score_notes] returned. *)
Definition supplemental_columns (cl : call) : list string :=
  match call_result cl with
  | Some (_, Some add) => frame_columns add
  | _ => []
  end.

(** A rule list respects its declared dependencies when every rule's
    prerequisites are identities of rules earlier in the list. *)
Fixpoint respects_dependencies_from (prior : gset RuleID)
    (rules : list ScoringRule) : bool :=
  match rules with
  | [] => true
  | rule :: rest =>
      check_dependencies rule prior
      && respects_dependencies_from (prior ∪ {[get_rule_id rule]}) rest
  end.

Definition respects_dependencies (rules : list ScoringRule) : bool :=
  respects_dependencies_from ∅ rules.

(** The tags of the fixed list that trigger for the note [r], in the order of
    the list. *)
Definition triggering_tags (c : constants) (minAdjustedTotal crhSuperThreshold : float)
    (thresholds : string → float) (r : note) : list string :=
  filter (λ tag, is_exempt c tag = false
                 ∧ tag_triggers c minAdjustedTotal crhSuperThreshold thresholds tag r = true)
         (notHelpfulTagsTSVOrder c).

(** The rows a call contributes to [noteRules]. *)
Definition audit_rows (cl : call) : list (Z * string) :=
  (λ i, (i, get_name (call_rule cl))) <$> matched cl.

(** The state after the matched notes of a call were merged. *)
Definition merged (rule : ScoringRule) (activeNotes : list Z) (add : option frame)
    (st : run_state) : run_state :=
  merge_labels rule activeNotes (enter_rule rule (Some (activeNotes, add)) st).

(** The row of [scoredNotes] for the note [n], read off the final tables. *)
Definition scored_row (c : constants) (st : run_state) (n : note) : scored_note :=
  scored_note_of c
    (n, get_key "" (note_id n) (noteLabels st),
     get_key "" (note_id n) (join_column (groupby_aggregate_list (noteRules st))),
     get_key (nan_row (frame_columns (noteColumns st))) (note_id n)
             (frame_rows (noteColumns st))).

(** The rows the loop of [FilterTagOutliers.score_notes] adds for one tag. *)
Definition tag_rows (c : constants) (minAdjustedTotal crhSuperThreshold : float)
    (thresholds : string → float) (crh : list note) (tag : string) : list (Z * string) :=
  if is_exempt c tag then []
  else (λ i, (i, tag)) <$>
         (note_id <$>
            filter (λ r, tag_triggers c minAdjustedTotal crhSuperThreshold thresholds tag r = true)
                   crh).

(** What holds of the state after the rules [pre] ran to completion. *)
Record run_invariant (pre : list ScoringRule) (st : run_state) : Prop := {
  inv_ruleIDs : ruleIDs st = list_to_set (get_rule_id <$> pre);
  inv_calls : call_rule <$> calls st = pre;
  inv_noteRules : noteRules st = calls st ≫= audit_rows;
  inv_columns : frame_columns (noteColumns st) = calls st ≫= supplemental_columns;
  inv_labels : NoDup (noteLabels st).*1;
}.

(** The ids of the supplemental frame a call of [score_notes] returned. *)
Definition supplemental_ids (cl : call) : list Z :=
  match call_result cl with
  | Some (_, Some add) => (frame_rows add).*1
  | _ => []
  end.

(** The status of the last of the calls [cls] whose matched notes contain
    [i]. *)
Definition status_of_calls (i : Z) (cls : list call) : option string :=
  last (get_status ∘ call_rule <$> filter (λ cl, i ∈ matched cl) cls).

(** What the tables of a completed loop are in terms of its calls. *)
Record run_facts (st : run_state) : Prop := {
  facts_labels : NoDup (noteLabels st).*1;
  facts_status :
    ∀ k s, (k, s) ∈ noteLabels st ↔ status_of_calls k (calls st) = Some s;
  facts_columns :
    ∀ k, k ∈ (frame_rows (noteColumns st)).*1
         ↔ ∃ cl, cl ∈ calls st ∧ k ∈ supplemental_ids cl;
  facts_supplemental :
    ∀ cl k, cl ∈ calls st → k ∈ supplemental_ids cl → k ∈ matched cl;
  facts_one_row :
    Forall (λ cl, NoDup (supplemental_ids cl)) (calls st) →
    NoDup (frame_rows (noteColumns st)).*1;
}.

(** The rules built by the three classes of the source. *)
Inductive builtin (c : constants) (tag_filter : tag_filter_module) : ScoringRule → Prop :=
| builtin_DefaultRule ruleID status dependencies :
    builtin c tag_filter (DefaultRule ruleID status dependencies)
| builtin_RuleFromFunction ruleID status dependencies function :
    builtin c tag_filter (RuleFromFunction ruleID status dependencies function)
| builtin_FilterTagOutliers ruleID status dependencies
    tagRatioPercentile minAdjustedTotal crhSuperThreshold :
    builtin c tag_filter
      (FilterTagOutliers c tag_filter ruleID status dependencies tagRatioPercentile
         minAdjustedTotal crhSuperThreshold).

(** The rules without supplemental columns whose [score_notes] returns on
    the table [noteStats]: a [DefaultRule], or a [RuleFromFunction] whose
    function gives a mask with one entry per row. *)
Inductive plain (noteStats : list note) : ScoringRule → Prop :=
| plain_DefaultRule ruleID status dependencies :
    plain noteStats (DefaultRule ruleID status dependencies)
| plain_RuleFromFunction ruleID status dependencies function :
    length (function noteStats) = length noteStats →
    plain noteStats (RuleFromFunction ruleID status dependencies function).

(** ** Sample data *)

Module Sample.

Definition c : constants :=
  {| noteIdKey := "noteId";
     ratingStatusKey := "ratingStatus";
     activeRulesKey := "activeRules";
     activeFilterTagsKey := "activeFilterTags";
     noteInterceptKey := "noteIntercept";
     currentlyRatedHelpful := "CURRENTLY_RATED_HELPFUL";
     currentlyRatedNotHelpful := "CURRENTLY_RATED_NOT_HELPFUL";
     needsMoreRatings := "NEEDS_MORE_RATINGS";
     adjustedSuffix := "Adjusted";
     ratioSuffix := "Ratio";
     notHelpfulTagsTSVOrder := ["spam"; "hardToUnderstand"; "harassment"; "noteNotNeeded"];
     notHelpfulHardToUnderstandKey := "hardToUnderstand";
     notHelpfulNoteNotNeededKey := "noteNotNeeded" |}.

(** A threshold provider that answers 0.5 for every column. *)
Definition tag_filter : tag_filter_module :=
  {| get_tag_thresholds := λ _ _ _, 0.5%float |}.

(** A note with the given intercept and the adjusted total and ratio of the
    tags "spam" and "harassment"; the exempted tag "hardToUnderstand" has
    large statistics, every other column is 0. *)
Definition mk_note (i : Z) (intercept spam spamRatio harassment harassmentRatio : float)
    : note :=
  {| note_id := i;
     note_num := λ col,
       if decide (col = "noteIntercept") then intercept
       else if decide (col = "spamAdjusted") then spam
       else if decide (col = "spamAdjustedRatio") then spamRatio
       else if decide (col = "harassmentAdjusted") then harassment
       else if decide (col = "harassmentAdjustedRatio") then harassmentRatio
       else if decide (col = "hardToUnderstandAdjusted") then 100%float
       else if decide (col = "hardToUnderstandAdjustedRatio") then 1%float
       else 0%float |}.

(** Note 3 qualifies on "spam" and "harassment"; note 1 qualifies on "spam"
    but its intercept is above the super threshold 0.5; note 2 has no tag
    signal; note 4 has a low intercept. *)
Definition note3 : note := mk_note 3 0.4375 5 0.75 5 0.75.
Definition note1 : note := mk_note 1 0.625 5 0.75 0 0.
Definition note2 : note := mk_note 2 0.4375 0 0 0 0.
Definition note4 : note := mk_note 4 0.25 0 0 0 0.

Definition noteStats : list note := [note3; note1; note2].

Definition initialNMR : ScoringRule :=
  DefaultRule INITIAL_NMR "NEEDS_MORE_RATINGS" ∅.

(** [lambda noteStats: noteStats[c.noteInterceptKey] > 0.375] *)
Definition generalCRH : ScoringRule :=
  RuleFromFunction GENERAL_CRH "CURRENTLY_RATED_HELPFUL" {[INITIAL_NMR]}
    (λ noteStats, fmap (λ r, float_gt (note_num r "noteIntercept") 0.375) noteStats).

Definition tagFilter : ScoringRule :=
  FilterTagOutliers c tag_filter TAG_OUTLIER "NEEDS_MORE_RATINGS" {[GENERAL_CRH]}
    95 2.5 0.5.

Definition rules : list ScoringRule := [initialNMR; generalCRH; tagFilter].

(** A rule whose supplemental frame covers note 3 only although it matches
    every note. *)
Definition badSupplement : ScoringRule :=
  {| _ruleID := GENERAL_CRNH;
     _status := "CURRENTLY_RATED_NOT_HELPFUL";
     _dependencies := ∅;
     score_notes := λ noteStats _,
       Some (fmap note_id noteStats,
             Some {| frame_columns := ["foo"]; frame_rows := [(3%Z, [CellInt 0])] |}) |}.

(** A rule that emits a column "foo" for every note, under the identity
    [ruleID]. *)
Definition fooRule (ruleID : RuleID) : ScoringRule :=
  {| _ruleID := ruleID;
     _status := "NEEDS_MORE_RATINGS";
     _dependencies := ∅;
     score_notes := λ noteStats _,
       Some (fmap note_id noteStats,
             Some {| frame_columns := ["foo"];
                     frame_rows := fmap (λ r, (note_id r, [CellInt 1])) noteStats |}) |}.

(** The CRH rule alone, without prerequisites: it leaves the notes with a
    low intercept without a label. *)
Definition crhOnly : ScoringRule :=
  RuleFromFunction GENERAL_CRH "CURRENTLY_RATED_HELPFUL" ∅
    (λ noteStats, fmap (λ r, float_gt (note_num r "noteIntercept") 0.375) noteStats).

(** The state in which the loop over [rules] ends on [noteStats]. *)
Definition state_after (rules : list ScoringRule) : run_state :=
  last_state (run_rules c noteStats rules initial_state).

(** The table expected of [rules] on [noteStats]: note 3 is demoted by the
    tag filter, note 1 is immune, note 2 has no tag signal. *)
Definition first_row : scored_note :=
  scored_note_of c
    (note3, "NEEDS_MORE_RATINGS",
     "InitialNMR (v1.0),GeneralCRH (v1.0),TagFilter (v1.0)",
     [CellStr "spam,harassment"]).

Definition scoredNotes : scored_frame :=
  {| scored_columns := ["activeFilterTags"];
     scored_rows :=
       [first_row;
        scored_note_of c
          (note1, "CURRENTLY_RATED_HELPFUL", "InitialNMR (v1.0),GeneralCRH (v1.0)", [NaN]);
        scored_note_of c
          (note2, "CURRENTLY_RATED_HELPFUL", "InitialNMR (v1.0),GeneralCRH (v1.0)", [NaN])] |}.

(** The supplemental frame of [tagFilter] on [noteStats] when every note is
    labelled CRH. *)
Definition tagColumns : frame :=
  {| frame_columns := ["activeFilterTags"];
     frame_rows := [(3%Z, [CellStr "spam,harassment"])] |}.

Definition allCRH : list (Z * string) :=
  [(3%Z, "CURRENTLY_RATED_HELPFUL"); (1%Z, "CURRENTLY_RATED_HELPFUL");
   (2%Z, "CURRENTLY_RATED_HELPFUL")].

(** A rule whose supplemental frame holds every matched id twice. *)
Definition twiceRule : ScoringRule :=
  {| _ruleID := GENERAL_CRNH;
     _status := "NEEDS_MORE_RATINGS";
     _dependencies := ∅;
     score_notes := λ noteStats _,
       Some (fmap note_id noteStats,
             Some {| frame_columns := ["foo"];
                     frame_rows := fmap (λ r, (note_id r, [CellInt 1]))
                                        (noteStats ++ noteStats) |}) |}.

End Sample.

(** * Properties *)

(** ** Float comparisons *)

Lemma SFcompare_Lt_Gt (a b : SpecFloat.spec_float) :
  SpecFloat.SFcompare a b = Some Lt → SpecFloat.SFcompare b a = Some Gt.
Proof.
  destruct a as [sa|sa| |sa ma ea], b as [sb|sb| |sb mb eb]; simpl;
    try (destruct sa); try (destruct sb); try done.
  all: rewrite (Z.compare_antisym ea eb);
    change (Pos.compare_cont Eq mb ma) with (Pos.compare mb ma);
    change (Pos.compare_cont Eq ma mb) with (Pos.compare ma mb);
    rewrite (Pos.compare_antisym ma mb);
    destruct (ea ?= eb)%Z; simpl; try done;
    destruct (ma ?= mb)%positive; simpl; done.
Qed.

Lemma float_lt_not_ge (x y : float) : float_lt x y = true → float_ge x y = false.
Proof.
  unfold float_lt, float_ge. rewrite ltb_spec, leb_spec.
  unfold SpecFloat.SFltb, SpecFloat.SFleb.
  destruct (SpecFloat.SFcompare (Prim2SF x) (Prim2SF y)) as [[]|] eqn:E; try done.
  intros _. by rewrite (SFcompare_Lt_Gt _ _ E).
Qed.

(** ** Keyed frames *)

Section KeyedFrames.
Context {V : Type}.
Implicit Types (rows new : list (Z * V)) (k : Z) (v : V).

Lemma elem_of_rows_with_key k v rows : v ∈ rows_with_key k rows ↔ (k, v) ∈ rows.
Proof.
  unfold rows_with_key. rewrite list_elem_of_fmap. split.
  - intros [[k' v'] [-> [Hk Hin]%list_elem_of_filter]]. simpl in *. by subst.
  - intros Hin. exists (k, v). split; [done|]. by apply list_elem_of_filter.
Qed.

Lemma rows_with_key_cons k r rows :
  rows_with_key k (r :: rows)
  = if decide (r.1 = k) then r.2 :: rows_with_key k rows else rows_with_key k rows.
Proof. unfold rows_with_key. rewrite filter_cons. by case_decide. Qed.

Lemma rows_with_key_app k rows new :
  rows_with_key k (rows ++ new) = rows_with_key k rows ++ rows_with_key k new.
Proof. unfold rows_with_key. by rewrite filter_app, fmap_app. Qed.

Lemma rows_with_key_absent k rows : k ∉ rows.*1 → rows_with_key k rows = [].
Proof.
  induction rows as [|r rows IH]; [done|]. rewrite fmap_cons, not_elem_of_cons.
  intros [Hne Hnin]. rewrite rows_with_key_cons. case_decide; [congruence|]. auto.
Qed.

Lemma rows_with_key_NoDup k v rows :
  NoDup rows.*1 → (k, v) ∈ rows → rows_with_key k rows = [v].
Proof.
  induction rows as [|r rows IH]; [by intros _ ?%elem_of_nil|].
  rewrite fmap_cons, NoDup_cons. intros [Hnin Hnd] [<-|Hin]%elem_of_cons.
  - rewrite rows_with_key_cons. simpl. case_decide; [|done].
    by rewrite rows_with_key_absent.
  - rewrite rows_with_key_cons. case_decide as Hk; [|by apply IH].
    exfalso. apply Hnin. rewrite Hk. by apply (list_elem_of_fmap_2 fst _ (k, v)).
Qed.

Lemma rows_with_key_length_NoDup k rows :
  NoDup rows.*1 → k ∈ rows.*1 → ∃ v, (k, v) ∈ rows ∧ rows_with_key k rows = [v].
Proof.
  intros Hnd [[k' v] [-> Hin]]%list_elem_of_fmap. exists v. split; [done|].
  by apply rows_with_key_NoDup.
Qed.

Lemma get_key_elem_of d k rows : k ∈ rows.*1 → (k, get_key d k rows) ∈ rows.
Proof.
  intros [[k' v] [-> Hin]]%list_elem_of_fmap. simpl.
  apply elem_of_rows_with_key in Hin as Hv. unfold get_key.
  destruct (rows_with_key k' rows) as [|w ws] eqn:E; [by apply elem_of_nil in Hv|].
  simpl. apply elem_of_rows_with_key. rewrite E. by left.
Qed.

Lemma get_key_NoDup d k v rows : NoDup rows.*1 → (k, v) ∈ rows → get_key d k rows = v.
Proof. intros Hnd Hin. unfold get_key. by rewrite (rows_with_key_NoDup k v). Qed.

(** *** [groupby(...).tail(1)] *)

Lemma groupby_tail1_subseteq rows r : r ∈ groupby_tail1 rows → r ∈ rows.
Proof.
  induction rows as [|r' rows IH]; [done|]. simpl. case_decide.
  - intros ?. right. auto.
  - intros [->|?]%elem_of_cons; [by left|right; auto].
Qed.

Lemma groupby_tail1_fst k rows : k ∈ (groupby_tail1 rows).*1 ↔ k ∈ rows.*1.
Proof.
  induction rows as [|r rows IH]; [done|]. simpl. case_decide as Hin.
  - rewrite IH, elem_of_cons. split; [by right|]. by intros [->|?].
  - by rewrite fmap_cons, !elem_of_cons, IH.
Qed.

Lemma NoDup_groupby_tail1 rows : NoDup (groupby_tail1 rows).*1.
Proof.
  induction rows as [|r rows IH]; [constructor|]. simpl. case_decide as Hin; [done|].
  rewrite fmap_cons. apply NoDup_cons. split; [|done]. by rewrite groupby_tail1_fst.
Qed.

Lemma groupby_tail1_id rows : NoDup rows.*1 → groupby_tail1 rows = rows.
Proof.
  induction rows as [|r rows IH]; [done|]. rewrite fmap_cons, NoDup_cons.
  intros [Hnin Hnd]. simpl. case_decide; [done|]. by rewrite IH.
Qed.

Lemma groupby_tail1_app_new k v rows new :
  k ∈ new.*1 → (k, v) ∈ groupby_tail1 (rows ++ new) ↔ (k, v) ∈ groupby_tail1 new.
Proof.
  intros Hk. induction rows as [|r rows IH]; [done|]. simpl. case_decide as Hin; [done|].
  rewrite elem_of_cons, IH. split; [|by right]. intros [Heq|?]; [|done].
  exfalso. apply Hin. rewrite <-Heq, fmap_app, elem_of_app. by right.
Qed.

Lemma groupby_tail1_app_old k v rows new :
  k ∉ new.*1 → (k, v) ∈ groupby_tail1 (rows ++ new) ↔ (k, v) ∈ groupby_tail1 rows.
Proof.
  intros Hk. induction rows as [|r rows IH].
  - simpl. split; [|intros Hin; by apply elem_of_nil in Hin].
    intros Hin. apply groupby_tail1_subseteq in Hin.
    exfalso. apply Hk. by apply (list_elem_of_fmap_2 fst _ (k, v)).
  - simpl. destruct (decide (r.1 ∈ (rows ++ new).*1)) as [Hin|Hin];
      destruct (decide (r.1 ∈ rows.*1)) as [Hr|Hr].
    + done.
    + rewrite elem_of_cons, IH. split; [by right|]. intros [Heq|?]; [|done].
      rewrite fmap_app, elem_of_app in Hin. destruct Hin as [?|Hn]; [done|].
      subst r. by destruct Hk.
    + destruct Hin. rewrite fmap_app, elem_of_app. by left.
    + by rewrite !elem_of_cons, IH.
Qed.

End KeyedFrames.

(** *** Group keys *)

Lemma elem_of_group_keys k ids : k ∈ group_keys ids ↔ k ∈ ids.
Proof. unfold group_keys. by rewrite merge_sort_Permutation, elem_of_remove_dups. Qed.

Lemma NoDup_group_keys ids : NoDup (group_keys ids).
Proof. unfold group_keys. rewrite merge_sort_Permutation. apply NoDup_remove_dups. Qed.

Lemma fst_fmap_keyed {A W} (key : A → Z) (f : A → W) (l : list A) :
  ((λ a, (key a, f a)) <$> l).*1 = key <$> l.
Proof. induction l as [|a l IH]; [done|]. by rewrite !fmap_cons, IH. Qed.

Lemma rows_with_key_keys {W} (f : Z → W) k keys :
  NoDup keys → k ∈ keys → rows_with_key k ((λ j, (j, f j)) <$> keys) = [f k].
Proof.
  intros Hnd Hin. apply rows_with_key_NoDup.
  - by rewrite (fst_fmap_keyed id f), list_fmap_id.
  - by apply (list_elem_of_fmap_2 (λ j, (j, f j))).
Qed.

Section Groupby.
Context {V : Type}.
Implicit Types (rows : list (Z * V)).

Lemma groupby_aggregate_list_fst rows :
  (groupby_aggregate_list rows).*1 = group_keys rows.*1.
Proof.
  unfold groupby_aggregate_list.
  by rewrite (fst_fmap_keyed id (λ k, rows_with_key k rows)), list_fmap_id.
Qed.

Lemma rows_with_key_groupby k rows :
  k ∈ rows.*1 → rows_with_key k (groupby_aggregate_list rows) = [rows_with_key k rows].
Proof.
  intros Hin. unfold groupby_aggregate_list.
  apply (rows_with_key_keys (λ j, rows_with_key j rows)).
  - apply NoDup_group_keys.
  - by apply elem_of_group_keys.
Qed.

End Groupby.

Lemma join_column_fst rows : (join_column rows).*1 = rows.*1.
Proof. unfold join_column. apply (fst_fmap_keyed fst (λ g, String.concat "," g.2)). Qed.

Lemma rows_with_key_join_column k rows :
  rows_with_key k (join_column rows) = String.concat "," <$> rows_with_key k rows.
Proof.
  induction rows as [|g rows IH]; [done|]. unfold join_column in *.
  rewrite fmap_cons, !rows_with_key_cons. simpl. case_decide; [|done].
  by rewrite fmap_cons, IH.
Qed.

(** ** Merges *)

Lemma bind_length_tight {A C} (f : A → list C) (l : list A) :
  (∀ a, 1 ≤ length (f a)) → length (l ≫= f) = length l →
  Forall (λ a, length (f a) = 1) l.
Proof.
  intros Hf. assert (Hge : ∀ l', length l' ≤ length (l' ≫= f)).
  { induction l' as [|a l' IH]; [done|]. rewrite bind_cons, length_app. simpl.
    specialize (Hf a). lia. }
  induction l as [|a l IH]; [constructor|]. rewrite bind_cons, length_app. simpl.
  intros Hlen. specialize (Hf a). specialize (Hge l).
  constructor; [lia|]. apply IH. lia.
Qed.

Section Merges.
Context {A B : Type} (key : A → Z).
Implicit Types (lhs : list A) (rhs : list (Z * B)) (m : B).

Lemma merge_inner_NoDup d lhs rhs :
  NoDup rhs.*1 → (∀ a, a ∈ lhs → key a ∈ rhs.*1) →
  merge_inner key lhs rhs = (λ a, (a, get_key d (key a) rhs)) <$> lhs.
Proof.
  intros Hnd. unfold merge_inner. induction lhs as [|a lhs IH]; [done|].
  intros Hcov. rewrite bind_cons, fmap_cons.
  rewrite IH by (intros a' Ha'; apply Hcov; by right).
  destruct (rows_with_key_length_NoDup (key a) rhs Hnd) as (v & Hv & Hrows).
  { apply Hcov. by left. }
  rewrite Hrows. simpl. by rewrite (get_key_NoDup d (key a) v).
Qed.

Lemma merge_inner_fst_filter lhs rhs :
  NoDup rhs.*1 →
  (merge_inner key lhs rhs).*1 = filter (λ a, key a ∈ rhs.*1) lhs.
Proof.
  intros Hnd. unfold merge_inner. induction lhs as [|a lhs IH]; [done|].
  rewrite bind_cons, fmap_app, IH, filter_cons. case_decide as Hin.
  - destruct (rows_with_key_length_NoDup (key a) rhs Hnd Hin) as (v & _ & ->). done.
  - by rewrite rows_with_key_absent.
Qed.

Lemma or_missing_length (m : B) bs : 1 ≤ length (or_missing m bs).
Proof. destruct bs; simpl; lia. Qed.

Lemma or_missing_single (m : B) k rhs :
  length (or_missing m (rows_with_key k rhs)) = 1 →
  or_missing m (rows_with_key k rhs) = [get_key m k rhs].
Proof.
  unfold get_key. destruct (rows_with_key k rhs) as [|b [|b' bs]]; simpl; done.
Qed.

Lemma merge_left_tight m lhs rhs :
  length (merge_left key m lhs rhs) = length lhs →
  merge_left key m lhs rhs = (λ a, (a, get_key m (key a) rhs)) <$> lhs.
Proof.
  unfold merge_left. intros Hlen. apply bind_length_tight in Hlen.
  - induction Hlen as [|a lhs Ha _ IH]; [done|].
    rewrite bind_cons, fmap_cons, IH. rewrite length_fmap in Ha.
    by rewrite (or_missing_single _ _ _ Ha).
  - intros a. rewrite length_fmap. apply or_missing_length.
Qed.

Lemma merge_left_empty m lhs :
  merge_left key m lhs [] = (λ a, (a, m)) <$> lhs.
Proof. unfold merge_left. induction lhs as [|a lhs IH]; [done|]. by rewrite bind_cons, IH. Qed.

End Merges.

(** ** Sets of ids *)

Lemma id_set_eq_elem_of (l1 l2 : list Z) :
  id_set l1 = id_set l2 ↔ ∀ k, k ∈ l1 ↔ k ∈ l2.
Proof.
  unfold id_set. split.
  - intros Heq k. by rewrite <-(elem_of_list_to_set (C:=gset Z) k l1), Heq, elem_of_list_to_set.
  - intros Heq. apply set_eq. intros k. by rewrite !elem_of_list_to_set.
Qed.

Lemma elem_of_drop_duplicates k ids : k ∈ drop_duplicates ids ↔ k ∈ ids.
Proof.
  unfold drop_duplicates.
  assert (∀ acc, k ∈ fold_left (λ acc x, if decide (x ∈ acc) then acc else acc ++ [x]) ids acc
                 ↔ k ∈ acc ∨ k ∈ ids) as H.
  { induction ids as [|x ids IH]; intros acc; simpl.
    - rewrite elem_of_nil. tauto.
    - rewrite IH, elem_of_cons. case_decide as Hx.
      + split; [tauto|]. intros [?|[->|?]]; auto.
      + rewrite elem_of_app, list_elem_of_singleton. tauto. }
  rewrite H, elem_of_nil. tauto.
Qed.

Lemma drop_duplicates_NoDup ids : NoDup ids → drop_duplicates ids = ids.
Proof.
  unfold drop_duplicates.
  assert (∀ acc, NoDup (acc ++ ids) →
    fold_left (λ acc x, if decide (x ∈ acc) then acc else acc ++ [x]) ids acc = acc ++ ids) as H.
  { induction ids as [|x ids IH]; intros acc Hnd; simpl.
    - by rewrite app_nil_r.
    - rewrite decide_False.
      + rewrite IH; rewrite <-app_assoc; done.
      + apply NoDup_app in Hnd as (_ & Hdisj & _). intros Hx. apply (Hdisj x Hx). by left. }
  intros Hnd. by apply (H []).
Qed.

(** ** The end of a run *)

Section Finish.
Context (c : constants).

Lemma merge_results_tight noteStats st :
  NoDup (noteLabels st).*1 → NoDup (noteRules st).*1 →
  (∀ n, n ∈ noteStats → note_id n ∈ (noteLabels st).*1) →
  (∀ n, n ∈ noteStats → note_id n ∈ (noteRules st).*1) →
  length (merge_results noteStats st) = length noteStats →
  merge_results noteStats st
  = (λ n, (n, get_key "" (note_id n) (noteLabels st),
           get_key "" (note_id n) (noteRules st),
           get_key (nan_row (frame_columns (noteColumns st))) (note_id n)
                   (frame_rows (noteColumns st)))) <$> noteStats.
Proof.
  intros Hl Hr Hcl Hcr. unfold merge_results.
  rewrite (merge_inner_NoDup note_id "" _ _ Hl Hcl).
  rewrite (merge_inner_NoDup _ "" _ _ Hr).
  - intros Hlen. rewrite merge_left_tight.
    + rewrite <-!list_fmap_compose. done.
    + by rewrite Hlen, !length_fmap.
  - intros [n s] [n' [[= -> ->] Hn]]%list_elem_of_fmap. simpl. auto.
Qed.

End Finish.

(** ** One step of the loop *)

Section Step.
Context (c : constants) (noteStats : list note).

Ltac step_cases rule st :=
  unfold apply_rule;
  destruct (check_dependencies rule (ruleIDs st)) eqn:Hdeps; simpl;
  [case_bool_decide as Hfresh;
   [|destruct (score_notes rule noteStats (noteLabels st)) as [[activeNotes [add|]]|] eqn:Hscore;
     simpl;
     [destruct (bool_decide (id_set activeNotes = id_set (frame_rows add).*1)) eqn:Hids; simpl;
      [destruct (columns_ok c (noteColumns st) add) eqn:Hcols|]| |]]|].

Lemma apply_rule_Done st rule st' :
  apply_rule c noteStats st rule = Done st' →
  ∃ activeNotes add,
    check_dependencies rule (ruleIDs st) = true
    ∧ (get_rule_id rule ∉ ruleIDs st)
    ∧ score_notes rule noteStats (noteLabels st) = Some (activeNotes, add)
    ∧ supplemental_ids_ok activeNotes add = true
    ∧ match add with
      | None => st' = merged rule activeNotes add st
      | Some a =>
          columns_ok c (noteColumns st) a = true
          ∧ st' = set_noteColumns (merge_outer (noteColumns st) a)
                                  (merged rule activeNotes add st)
      end.
Proof.
  step_cases rule st; intros [= <-].
  - exists activeNotes, (Some add). simpl. by rewrite Hids.
  - by exists activeNotes, None.
Qed.

Lemma apply_rule_unmet st rule :
  check_dependencies rule (ruleIDs st) = false →
  apply_rule c noteStats st rule = Fatal UnmetDependencies st.
Proof. intros H. unfold apply_rule. by rewrite H. Qed.

Lemma apply_rule_mismatch st rule activeNotes add :
  check_dependencies rule (ruleIDs st) = true →
  get_rule_id rule ∉ ruleIDs st →
  score_notes rule noteStats (noteLabels st) = Some (activeNotes, Some add) →
  id_set activeNotes ≠ id_set (frame_rows add).*1 →
  apply_rule c noteStats st rule
  = Fatal SupplementalIdMismatch (enter_rule rule (Some (activeNotes, Some add)) st).
Proof.
  intros Hd Hf Hs Hne. unfold apply_rule. rewrite Hd. simpl.
  rewrite bool_decide_eq_false_2 by done. rewrite Hs. simpl.
  by rewrite bool_decide_eq_false_2.
Qed.

Lemma apply_rule_collision st rule activeNotes add :
  check_dependencies rule (ruleIDs st) = true →
  get_rule_id rule ∉ ruleIDs st →
  score_notes rule noteStats (noteLabels st) = Some (activeNotes, Some add) →
  id_set activeNotes = id_set (frame_rows add).*1 →
  columns_ok c (noteColumns st) add = false →
  apply_rule c noteStats st rule
  = Fatal ColumnCollision (merged rule activeNotes (Some add) st).
Proof.
  intros Hd Hf Hs He Hc. unfold apply_rule. rewrite Hd. simpl.
  rewrite bool_decide_eq_false_2 by done. rewrite Hs. simpl.
  rewrite bool_decide_eq_true_2 by done. simpl. by rewrite Hc.
Qed.

Lemma apply_rule_plain st rule activeNotes :
  check_dependencies rule (ruleIDs st) = true →
  get_rule_id rule ∉ ruleIDs st →
  score_notes rule noteStats (noteLabels st) = Some (activeNotes, None) →
  apply_rule c noteStats st rule = Done (merged rule activeNotes None st).
Proof.
  intros Hd Hf Hs. unfold apply_rule. rewrite Hd. simpl.
  rewrite bool_decide_eq_false_2 by done. by rewrite Hs.
Qed.

(** The calls made by a step: a completed step calls its rule; an aborted
    step has called it at most once. *)
Lemma apply_rule_calls st rule :
  match apply_rule c noteStats st rule with
  | Done st' => call_rule <$> calls st' = (call_rule <$> calls st) ++ [rule]
  | Fatal _ st' =>
      call_rule <$> calls st' = call_rule <$> calls st
      ∨ call_rule <$> calls st' = (call_rule <$> calls st) ++ [rule]
  end.
Proof.
  step_cases rule st; simpl; rewrite ?fmap_app; auto.
Qed.

Lemma apply_rule_labels_NoDup st rule :
  NoDup (noteLabels st).*1 →
  NoDup (noteLabels (last_state (apply_rule c noteStats st rule))).*1.
Proof.
  intros Hnd. step_cases rule st; simpl; auto using NoDup_groupby_tail1.
Qed.

End Step.

(** ** The loop *)

Section Run.
Context (c : constants) (noteStats : list note).

Lemma run_rules_app pre post st :
  run_rules c noteStats (pre ++ post) st
  = match run_rules c noteStats pre st with
    | Done st' => run_rules c noteStats post st'
    | Fatal why st' => Fatal why st'
    end.
Proof.
  revert st. induction pre as [|rule pre IH]; intros st; [done|]. simpl.
  destruct (apply_rule c noteStats st rule); [apply IH|done].
Qed.

Lemma invariant_initial : run_invariant [] initial_state.
Proof. split; simpl; try done. apply NoDup_nil_2. Qed.

Lemma invariant_step pre st rule st' :
  run_invariant pre st → apply_rule c noteStats st rule = Done st' →
  run_invariant (pre ++ [rule]) st'.
Proof.
  intros [Hids Hcalls Hrules Hcols Hlabels] (activeNotes & add & _ & _ & _ & _ & Hst')%apply_rule_Done.
  assert (st' = set_noteColumns (noteColumns st') (merged rule activeNotes add st)
          ∧ frame_columns (noteColumns st')
            = frame_columns (noteColumns st) ++ supplemental_columns
                {| call_rule := rule; call_result := Some (activeNotes, add) |})
    as [Heq Hcols'].
  { destruct add as [a|]; [destruct Hst' as [_ ->]|subst st']; simpl; [done|].
    by rewrite app_nil_r. }
  rewrite Heq. split; simpl.
  - rewrite Hids, fmap_app, list_to_set_app_L. simpl. by rewrite union_empty_r_L.
  - by rewrite fmap_app, Hcalls.
  - rewrite Hrules, bind_app. simpl. by rewrite app_nil_r.
  - rewrite Hcols', Hcols, bind_app. simpl. by rewrite app_nil_r.
  - apply NoDup_groupby_tail1.
Qed.

Lemma invariant_run pre rules st st' :
  run_invariant pre st → run_rules c noteStats rules st = Done st' →
  run_invariant (pre ++ rules) st'.
Proof.
  revert pre st. induction rules as [|rule rules IH]; intros pre st Hinv; simpl.
  - intros [= <-]. by rewrite app_nil_r.
  - destruct (apply_rule c noteStats st rule) as [st1|] eqn:Hstep; [|done].
    intros Hrun. rewrite (cons_middle rule pre rules), app_assoc.
    eapply IH; [|done]. by eapply invariant_step.
Qed.

Lemma invariant_completed rules st :
  run_rules c noteStats rules initial_state = Done st → run_invariant rules st.
Proof. apply (invariant_run [] rules), invariant_initial. Qed.

Lemma run_rules_calls rules st :
  ∃ k, call_rule <$> calls (last_state (run_rules c noteStats rules st))
       = (call_rule <$> calls st) ++ take k rules.
Proof.
  revert st. induction rules as [|rule rules IH]; intros st; simpl.
  - exists 0. by rewrite app_nil_r.
  - pose proof (apply_rule_calls c noteStats st rule) as Hcalls.
    destruct (apply_rule c noteStats st rule) as [st1|why st1]; simpl.
    + destruct (IH st1) as [k Hk]. exists (S k). rewrite Hk, Hcalls. simpl.
      by rewrite <-app_assoc.
    + destruct Hcalls as [->| ->]; [exists 0|exists 1]; simpl; by rewrite ?app_nil_r.
Qed.

Lemma run_rules_labels_NoDup rules st :
  NoDup (noteLabels st).*1 →
  NoDup (noteLabels (last_state (run_rules c noteStats rules st))).*1.
Proof.
  revert st. induction rules as [|rule rules IH]; intros st Hnd; [done|]. simpl.
  pose proof (apply_rule_labels_NoDup c noteStats st rule Hnd) as Hstep.
  destruct (apply_rule c noteStats st rule) as [st1|why st1]; simpl in *; auto.
Qed.

(** ** After the loop *)

Lemma finish_Done st out :
  NoDup (noteLabels st).*1 → finish c noteStats st = Done out →
  scored_columns out = frame_columns (noteColumns st)
  ∧ scored_rows out = scored_row c st <$> noteStats
  ∧ (∀ k, k ∈ note_id <$> noteStats ↔ k ∈ (noteLabels st).*1)
  ∧ (∀ k, k ∈ note_id <$> noteStats ↔ k ∈ (noteRules st).*1).
Proof.
  intros Hnd. unfold finish. simpl.
  case_bool_decide as Hl; simpl; [|done].
  case_bool_decide as Hr; simpl; [|done].
  case_bool_decide as Hc; simpl; [|done].
  case_bool_decide as Hlen; simpl; [|done].
  intros [= <-]. simpl.
  pose proof (proj1 (id_set_eq_elem_of _ _) Hl) as Hl'.
  pose proof (proj1 (id_set_eq_elem_of _ _) Hr) as Hr0. clear Hl Hr.
  assert (Hr' : ∀ k, k ∈ note_id <$> noteStats ↔ k ∈ (noteRules st).*1).
  { intros k. by rewrite Hr0, join_column_fst, groupby_aggregate_list_fst, elem_of_group_keys. }
  split_and!; try done.
  rewrite merge_results_tight; simpl; try done.
  - by rewrite <-list_fmap_compose.
  - rewrite join_column_fst, groupby_aggregate_list_fst. apply NoDup_group_keys.
  - intros n Hn. apply Hl'. by apply list_elem_of_fmap_2.
  - intros n Hn. apply Hr0. by apply list_elem_of_fmap_2.
Qed.

Lemma finish_complete st :
  NoDup (noteLabels st).*1 →
  (∀ k, k ∈ note_id <$> noteStats ↔ k ∈ (noteLabels st).*1) →
  (∀ k, k ∈ note_id <$> noteStats ↔ k ∈ (noteRules st).*1) →
  frame_rows (noteColumns st) = [] →
  ∃ out, finish c noteStats st = Done out.
Proof.
  intros Hnd Hl Hr Hc. unfold finish. simpl.
  rewrite bool_decide_eq_true_2 by by apply id_set_eq_elem_of. simpl.
  assert (Hr' : ∀ k, k ∈ note_id <$> noteStats
                     ↔ k ∈ (join_column (groupby_aggregate_list (noteRules st))).*1).
  { intros k. by rewrite Hr, join_column_fst, groupby_aggregate_list_fst, elem_of_group_keys. }
  rewrite bool_decide_eq_true_2 by by apply id_set_eq_elem_of. simpl.
  rewrite Hc. simpl. rewrite bool_decide_eq_true_2.
  2:{ unfold id_set. simpl. by rewrite difference_disjoint_L, size_empty by set_solver. }
  simpl. rewrite bool_decide_eq_true_2; [by eexists|].
  unfold merge_results. simpl. rewrite Hc, merge_left_empty, length_fmap.
  rewrite (merge_inner_NoDup _ "").
  - rewrite length_fmap, (merge_inner_NoDup _ ""), length_fmap; [done|done|].
    intros n Hn. apply Hl. by apply list_elem_of_fmap_2.
  - rewrite join_column_fst, groupby_aggregate_list_fst. apply NoDup_group_keys.
  - intros [n s] Hn. simpl. apply Hr'. apply list_elem_of_fmap_2.
    unfold merge_inner in Hn. apply list_elem_of_bind in Hn as (n' & Hn & Hn').
    apply list_elem_of_fmap in Hn as (s' & [= -> ->] & _). done.
Qed.

End Run.

(** ** More on keyed frames *)

Lemma elem_of_merge_inner {A B} (key : A → Z) (L : list A) (R : list (Z * B)) a b :
  (a, b) ∈ merge_inner key L R ↔ a ∈ L ∧ (key a, b) ∈ R.
Proof.
  unfold merge_inner. rewrite list_elem_of_bind. split.
  - intros (a' & [b' [[= -> ->] Hb]]%list_elem_of_fmap & Ha).
    split; [done|]. by apply elem_of_rows_with_key.
  - intros [Ha Hb]. exists a. split; [|done].
    apply list_elem_of_fmap. exists b. split; [done|]. by apply elem_of_rows_with_key.
Qed.

Lemma NoDup_key_inj {A} (key : A → Z) (l : list A) a b :
  NoDup (key <$> l) → a ∈ l → b ∈ l → key a = key b → a = b.
Proof.
  induction l as [|x l IH]; [by intros _ ?%elem_of_nil|].
  rewrite fmap_cons, NoDup_cons. intros [Hx Hnd] Ha Hb Hk.
  apply elem_of_cons in Ha as [->|Ha]; apply elem_of_cons in Hb as [->|Hb]; auto.
  - destruct Hx. rewrite Hk. by apply list_elem_of_fmap_2.
  - destruct Hx. rewrite <-Hk. by apply list_elem_of_fmap_2.
Qed.

Lemma NoDup_fmap_filter {A} (key : A → Z) (P : A → Prop) `{!∀ a, Decision (P a)}
    (l : list A) :
  NoDup (key <$> l) → NoDup (key <$> filter P l).
Proof.
  intros Hnd. eapply sublist_NoDup; [done|]. apply fmap_sublist, sublist_filter.
Qed.

Lemma rows_with_key_bind {A V} (f : A → list (Z * V)) k (l : list A) :
  rows_with_key k (l ≫= f) = l ≫= λ a, rows_with_key k (f a).
Proof.
  induction l as [|a l IH]; [done|]. by rewrite !bind_cons, rows_with_key_app, IH.
Qed.

Lemma rows_with_key_const {V} (v : V) k (ids : list Z) :
  NoDup ids →
  rows_with_key k ((λ i, (i, v)) <$> ids) = if decide (k ∈ ids) then [v] else [].
Proof.
  intros Hnd. case_decide as Hin.
  - by apply (rows_with_key_keys (λ _, v)).
  - apply rows_with_key_absent. by rewrite (fst_fmap_keyed id (λ _, v)), list_fmap_id.
Qed.

Lemma rows_with_key_fmap_snd {V W} (g : V → W) k (rows : list (Z * V)) :
  rows_with_key k ((λ r, (r.1, g r.2)) <$> rows) = g <$> rows_with_key k rows.
Proof.
  induction rows as [|r rows IH]; [done|].
  rewrite fmap_cons, !rows_with_key_cons. simpl. case_decide; [|done].
  by rewrite fmap_cons, IH.
Qed.

Lemma bind_filter {A B} (P : A → Prop) `{!∀ a, Decision (P a)} (g : A → B) (l : list A) :
  l ≫= (λ a, if decide (P a) then [g a] else []) = g <$> filter P l.
Proof.
  induction l as [|a l IH]; [done|]. rewrite bind_cons, filter_cons, IH.
  by case_decide.
Qed.

(** ** The tag-outlier filter *)

Section TagFilterFacts.
Context (c : constants) (tag_filter : tag_filter_module).
Context (tagRatioPercentile : Z) (minAdjustedTotal crhSuperThreshold : float).
Context (noteStats : list note) (currentLabels : list (Z * string)).

Local Abbreviation crh := (crhStats c noteStats currentLabels).
Local Abbreviation thresholds := (get_tag_thresholds tag_filter crh tagRatioPercentile).
Local Abbreviation pairs :=
  (impacted_pairs c tag_filter tagRatioPercentile minAdjustedTotal crhSuperThreshold
                  noteStats currentLabels).
Local Abbreviation triggers := (tag_triggers c minAdjustedTotal crhSuperThreshold thresholds).

Lemma is_exempt_false tag :
  is_exempt c tag = false
  ↔ tag ≠ notHelpfulHardToUnderstandKey c ∧ tag ≠ notHelpfulNoteNotNeededKey c.
Proof. unfold is_exempt. rewrite bool_decide_eq_false. tauto. Qed.

Lemma tag_triggers_true tag r :
  triggers tag r = true
  ↔ float_gt (note_num r (tag +:+ adjustedSuffix c)) minAdjustedTotal = true
    ∧ float_gt (note_num r ((tag +:+ adjustedSuffix c) +:+ ratioSuffix c))
               (thresholds ((tag +:+ adjustedSuffix c) +:+ ratioSuffix c)) = true
    ∧ float_lt (note_num r (noteInterceptKey c)) crhSuperThreshold = true.
Proof. unfold tag_triggers. rewrite !andb_true_iff. tauto. Qed.

Lemma elem_of_crhStats r :
  r ∈ crh ↔ r ∈ noteStats ∧ (note_id r, currentlyRatedHelpful c) ∈ currentLabels.
Proof.
  unfold crhStats. rewrite list_elem_of_fmap. split.
  - intros ([r' []] & -> & [Hr Hin]%elem_of_merge_inner). simpl in *. split; [done|].
    apply list_elem_of_fmap in Hin as ([k s] & [= ->] & [Hs Hin]%list_elem_of_filter).
    simpl in *. by subst.
  - intros [Hr Hin]. exists (r, tt). split; [done|]. apply elem_of_merge_inner.
    split; [done|]. apply list_elem_of_fmap. exists (note_id r, currentlyRatedHelpful c).
    split; [done|]. by apply list_elem_of_filter.
Qed.

Lemma NoDup_crhStats :
  NoDup (note_id <$> noteStats) → NoDup currentLabels.*1 → NoDup (note_id <$> crh).
Proof.
  intros Hn Hl. unfold crhStats. rewrite merge_inner_fst_filter.
  - by apply NoDup_fmap_filter.
  - rewrite (fst_fmap_keyed fst (λ _, tt)). by apply NoDup_fmap_filter.
Qed.

Lemma impacted_pairs_bind :
  pairs = notHelpfulTagsTSVOrder c
            ≫= tag_rows c minAdjustedTotal crhSuperThreshold thresholds crh.
Proof.
  unfold impacted_pairs.
  set (step := λ (impactedNotes : list (Z * string)) (tag : string), _).
  assert (∀ tags acc, fold_left step tags acc
    = acc ++ (tags ≫= tag_rows c minAdjustedTotal crhSuperThreshold thresholds crh)) as H.
  { induction tags as [|tag tags IH]; intros acc; simpl.
    - by rewrite app_nil_r.
    - rewrite IH. unfold step, tag_rows.
      destruct (is_exempt c tag); simpl; [done|]. by rewrite <-app_assoc. }
  by rewrite H.
Qed.

Lemma elem_of_impacted_pairs i tag :
  (i, tag) ∈ pairs
  ↔ tag ∈ notHelpfulTagsTSVOrder c ∧ is_exempt c tag = false
    ∧ ∃ r, r ∈ crh ∧ note_id r = i ∧ triggers tag r = true.
Proof.
  rewrite impacted_pairs_bind, list_elem_of_bind. unfold tag_rows. split.
  - intros (tag' & Hin & Htag). destruct (is_exempt c tag') eqn:Hex.
    { by apply elem_of_nil in Hin. }
    apply list_elem_of_fmap in Hin as (i' & [= -> ->] & Hin).
    apply list_elem_of_fmap in Hin as (r & -> & [Htr Hr]%list_elem_of_filter).
    split_and!; try done. by exists r.
  - intros (Htag & Hex & r & Hr & <- & Htr). exists tag. split; [|done].
    rewrite Hex. apply list_elem_of_fmap. exists (note_id r). split; [done|].
    apply list_elem_of_fmap_2. by apply list_elem_of_filter.
Qed.

Lemma FilterTagOutliers_score_notes_eq :
  FilterTagOutliers_score_notes c tag_filter tagRatioPercentile minAdjustedTotal
    crhSuperThreshold noteStats currentLabels
  = Some (group_keys pairs.*1,
          Some {| frame_columns := [activeFilterTagsKey c];
                  frame_rows := (λ r, (r.1, [CellStr r.2])) <$>
                                  join_column (groupby_aggregate_list pairs) |}).
Proof.
  unfold FilterTagOutliers_score_notes.
  rewrite join_column_fst, groupby_aggregate_list_fst.
  by rewrite drop_duplicates_NoDup by apply NoDup_group_keys.
Qed.

Lemma rows_with_key_pairs r :
  NoDup (note_id <$> noteStats) → NoDup currentLabels.*1 → r ∈ crh →
  rows_with_key (note_id r) pairs
  = triggering_tags c minAdjustedTotal crhSuperThreshold thresholds r.
Proof.
  intros Hn Hl Hr. rewrite impacted_pairs_bind, rows_with_key_bind.
  unfold triggering_tags. rewrite <-(list_fmap_id (filter _ _)), <-bind_filter.
  unfold id.
  apply list_bind_ext; [|done]. intros tag. unfold tag_rows.
  assert (Hnd : NoDup (note_id <$> filter (λ r0, triggers tag r0 = true) crh)).
  { apply NoDup_fmap_filter. by apply NoDup_crhStats. }
  destruct (decide (is_exempt c tag = false
      ∧ tag_triggers c minAdjustedTotal crhSuperThreshold thresholds tag r = true))
    as [[Hex Htr]|Hno].
  - rewrite Hex, rows_with_key_const by done. rewrite decide_True; [done|].
    apply list_elem_of_fmap_2. by apply list_elem_of_filter.
  - destruct (is_exempt c tag) eqn:Hex; [done|].
    rewrite rows_with_key_const by done. rewrite decide_False; [done|].
    intros (r' & Hid & [Htr' Hr']%list_elem_of_filter)%list_elem_of_fmap.
    apply Hno. split; [done|].
    by rewrite (NoDup_key_inj note_id crh r r' (NoDup_crhStats Hn Hl)).
Qed.

End TagFilterFacts.

(** ** The table of a completed run *)

Section Completed.
Context (c : constants).

Lemma scored_row_note st n : sn_note (scored_row c st n) = n.
Proof. done. Qed.

Lemma scored_row_status st n :
  sn_ratingStatus (scored_row c st n) = get_key "" (note_id n) (noteLabels st).
Proof. done. Qed.

Lemma scored_row_rules st n :
  sn_activeRules (scored_row c st n)
  = get_key "" (note_id n) (join_column (groupby_aggregate_list (noteRules st))).
Proof. done. Qed.

Lemma apply_scoring_rules_Done noteStats rules out :
  apply_scoring_rules c noteStats rules = Done out →
  ∃ st, run_rules c noteStats rules initial_state = Done st
        ∧ run_invariant rules st
        ∧ scored_rows out = scored_row c st <$> noteStats
        ∧ (∀ k, k ∈ note_id <$> noteStats ↔ k ∈ (noteLabels st).*1)
        ∧ (∀ k, k ∈ note_id <$> noteStats ↔ k ∈ (noteRules st).*1).
Proof.
  unfold apply_scoring_rules.
  destruct (run_rules c noteStats rules initial_state) as [st|] eqn:Hrun; [|done].
  intros Hfin. pose proof (invariant_completed c noteStats rules st Hrun) as Hinv.
  apply finish_Done in Hfin as (_ & Hrows & Hl & Hr); [|by destruct Hinv].
  by exists st.
Qed.

(** C1 (as amended): whenever [apply_scoring_rules] completes, the result has
    as many rows as the input, and its rows are the input rows, each once;
    with pairwise distinct input ids the rows are in the order of the input
    and every id appears exactly once; and each row carries the single status
    that the label table holds for its id. *)
Theorem apply_scoring_rules_one_row_per_note noteStats rules out :
  apply_scoring_rules c noteStats rules = Done out →
  length (scored_rows out) = length noteStats
  ∧ sn_note <$> scored_rows out ≡ₚ noteStats
  ∧ (NoDup (note_id <$> noteStats) →
     sn_note <$> scored_rows out = noteStats
     ∧ NoDup (note_id <$> (sn_note <$> scored_rows out)))
  ∧ ∃ st, run_rules c noteStats rules initial_state = Done st
      ∧ ∀ row, row ∈ scored_rows out →
          ∀ s, (note_id (sn_note row), s) ∈ noteLabels st ↔ s = sn_ratingStatus row.
Proof.
  intros (st & Hrun & Hinv & Hrows & Hl & _)%apply_scoring_rules_Done.
  assert (Hnotes : sn_note <$> scored_rows out = noteStats).
  { rewrite Hrows, <-list_fmap_compose. apply list_fmap_id. }
  split_and!.
  - by rewrite Hrows, length_fmap.
  - by rewrite Hnotes.
  - intros Hnd. by rewrite Hnotes.
  - exists st. split; [done|]. intros row Hrow s. rewrite Hrows in Hrow.
    apply list_elem_of_fmap in Hrow as (n & -> & Hn).
    rewrite scored_row_note, scored_row_status. destruct Hinv as [_ _ _ _ Hnd]. split.
    + intros Hin. symmetry. by apply get_key_NoDup.
    + intros ->. apply get_key_elem_of, Hl. by apply list_elem_of_fmap_2.
Qed.

End Completed.

Lemma loc_mask_all_true {A} (df : list A) : loc_mask df ((λ _, true) <$> df) = Some df.
Proof.
  unfold loc_mask. rewrite decide_True by by rewrite length_fmap. f_equal.
  induction df as [|a df IH]; [done|]. rewrite fmap_cons.
  change (zip (a :: df) (true :: ((λ _, true) <$> df)))
    with ((a, true) :: zip df ((λ _, true) <$> df)).
  rewrite filter_cons_True by done. by rewrite fmap_cons, IH.
Qed.

Lemma elem_of_const_rows {V} (v w : V) (i : Z) (ids : list Z) :
  (i, w) ∈ (λ j, (j, v)) <$> ids ↔ i ∈ ids ∧ w = v.
Proof.
  rewrite list_elem_of_fmap. split.
  - by intros (j & [= -> ->] & Hj).
  - intros [Hi ->]. by exists i.
Qed.

Lemma fst_const_rows {V} (v : V) (ids : list Z) : ((λ j, (j, v)) <$> ids).*1 = ids.
Proof. by rewrite (fst_fmap_keyed id (λ _, v)), list_fmap_id. Qed.

(** ** The label table *)

Section Labels.
Context (c : constants) (noteStats : list note).

(** The label table after a completed step. *)
Lemma apply_rule_labels st rule st' :
  apply_rule c noteStats st rule = Done st' →
  ∃ activeNotes add,
    score_notes rule noteStats (noteLabels st) = Some (activeNotes, add)
    ∧ noteLabels st'
      = groupby_tail1 (noteLabels st ++ ((λ i, (i, get_status rule)) <$> activeNotes))
    ∧ noteRules st' = noteRules st ++ ((λ i, (i, get_name rule)) <$> activeNotes).
Proof.
  intros (activeNotes & add & _ & _ & Hscore & _ & Hst')%apply_rule_Done.
  exists activeNotes, add. split; [done|].
  destruct add as [a|]; [destruct Hst' as [_ ->]|subst st']; done.
Qed.

Lemma overwritten_labels (labels : list (Z * string)) status activeNotes i s :
  NoDup labels.*1 →
  (i, s) ∈ groupby_tail1 (labels ++ ((λ j, (j, status)) <$> activeNotes))
  ↔ if decide (i ∈ activeNotes) then s = status else (i, s) ∈ labels.
Proof.
  intros Hnd. case_decide as Hin.
  - rewrite groupby_tail1_app_new by by rewrite fst_const_rows. split.
    + intros Hs. apply groupby_tail1_subseteq in Hs. by apply elem_of_const_rows in Hs as [_ ->].
    + intros ->.
      assert (i ∈ (groupby_tail1 ((λ j, (j, status)) <$> activeNotes)).*1) as Hi.
      { by rewrite groupby_tail1_fst, fst_const_rows. }
      apply list_elem_of_fmap in Hi as ([i' s'] & -> & Hi). simpl.
      apply groupby_tail1_subseteq in Hi as Hi'.
      by apply elem_of_const_rows in Hi' as [_ ->].
  - rewrite groupby_tail1_app_old by by rewrite fst_const_rows.
    by rewrite groupby_tail1_id.
Qed.

(** C2: at every point of a run the label table has at most one entry per
    note id; a completed step leaves, for every note its rule matched, the
    rule's status as the only entry, and the other entries as they were; and
    the rule list [Default; always-true predicate] completes on every input
    with the predicate rule's status on every row. *)
Theorem noteLabels_last_status_wins :
  (∀ rules,
     NoDup (noteLabels (last_state (run_rules c noteStats rules initial_state))).*1)
  ∧ (∀ pre rule st st' activeNotes add,
       run_rules c noteStats pre initial_state = Done st →
       apply_rule c noteStats st rule = Done st' →
       score_notes rule noteStats (noteLabels st) = Some (activeNotes, add) →
       ∀ i s, (i, s) ∈ noteLabels st'
              ↔ if decide (i ∈ activeNotes) then s = get_status rule
                else (i, s) ∈ noteLabels st)
  ∧ (∀ status1 status2, ∃ out,
       apply_scoring_rules c noteStats
         [DefaultRule INITIAL_NMR status1 ∅;
          RuleFromFunction GENERAL_CRH status2 {[INITIAL_NMR]} (fmap (λ _, true))]
       = Done out
       ∧ length (scored_rows out) = length noteStats
       ∧ ∀ row, row ∈ scored_rows out → sn_ratingStatus row = status2).
Proof.
  split_and!.
  - intros rules. apply run_rules_labels_NoDup. apply NoDup_nil_2.
  - intros pre rule st st' activeNotes add Hrun Hstep Hscore i s.
    apply apply_rule_labels in Hstep as (activeNotes' & add' & Hscore' & -> & _).
    rewrite Hscore in Hscore'. injection Hscore' as <- <-.
    apply overwritten_labels. by destruct (invariant_completed c noteStats pre st Hrun).
  - intros status1 status2.
    set (rule1 := DefaultRule INITIAL_NMR status1 ∅).
    set (rule2 := RuleFromFunction GENERAL_CRH status2 {[INITIAL_NMR]} (fmap (λ _, true))).
    set (ids := note_id <$> noteStats).
    set (st1 := merged rule1 ids None initial_state).
    set (st2 := merged rule2 ids None st1).
    assert (Hrun : run_rules c noteStats [rule1; rule2] initial_state = Done st2).
    { assert (apply_rule c noteStats initial_state rule1 = Done st1) as H1.
      { apply apply_rule_plain;
          [apply bool_decide_eq_true_2, difference_diag_L|apply not_elem_of_empty|done]. }
      assert (apply_rule c noteStats st1 rule2 = Done st2) as H2.
      { apply apply_rule_plain; simpl.
        - apply bool_decide_eq_true_2. simpl.
          rewrite union_empty_l_L. apply difference_diag_L.
        - by rewrite union_empty_l_L, elem_of_singleton.
        - by rewrite loc_mask_all_true. }
      simpl. by rewrite H1, H2. }
    assert (Hl : ∀ k, k ∈ ids ↔ k ∈ (noteLabels st2).*1).
    { intros k. simpl. rewrite groupby_tail1_fst, fmap_app, elem_of_app.
      rewrite groupby_tail1_fst, !fst_const_rows. tauto. }
    destruct (finish_complete c noteStats st2) as [out Hout]; try done.
    { apply NoDup_groupby_tail1. }
    { intros k. simpl. rewrite !fmap_app, !elem_of_app, !fst_const_rows. tauto. }
    exists out. unfold apply_scoring_rules. rewrite Hrun. split; [done|].
    apply finish_Done in Hout as (_ & Hrows & _); [|apply NoDup_groupby_tail1].
    rewrite Hrows, length_fmap. split; [done|].
    intros row (n & -> & Hn)%list_elem_of_fmap. rewrite scored_row_status.
    assert ((note_id n, get_key "" (note_id n) (noteLabels st2)) ∈ noteLabels st2) as Hin.
    { apply get_key_elem_of, Hl. by apply list_elem_of_fmap_2. }
    simpl in Hin. apply overwritten_labels in Hin; [|apply NoDup_groupby_tail1].
    rewrite decide_True in Hin by by apply list_elem_of_fmap_2. done.
Qed.

End Labels.

(** ** Aborted runs *)

Section Aborts.
Context (c : constants) (noteStats : list note).

Lemma apply_scoring_rules_Fatal rules why st :
  run_rules c noteStats rules initial_state = Fatal why st →
  apply_scoring_rules c noteStats rules = Fatal why st.
Proof. intros H. unfold apply_scoring_rules. by rewrite H. Qed.

Lemma check_dependencies_true rule (prior : gset RuleID) :
  check_dependencies rule prior = true ↔ _dependencies rule ⊆ prior.
Proof.
  unfold check_dependencies. rewrite bool_decide_eq_true. split.
  - intros Hd x Hx. destruct (decide (x ∈ prior)) as [|Hn]; [done|].
    assert (x ∈ _dependencies rule ∖ prior) as Hin by by apply elem_of_difference.
    rewrite Hd in Hin. by apply not_elem_of_empty in Hin.
  - intros Hsub. apply set_eq. intros x. rewrite elem_of_difference. split.
    + intros [Hx Hn]. destruct Hn. by apply Hsub.
    + by intros ?%not_elem_of_empty.
Qed.

(** C4: a rule with a prerequisite that is not the identity of an earlier
    rule makes the run abort; the calls of [score_notes] made by then are
    calls of rules before it, in order, so neither its own [score_notes] nor
    a later rule's is called; and when the rules before it complete, the run
    aborts in [check_dependencies] of that rule, in the state they left. *)
Theorem check_dependencies_aborts pre rule post d :
  d ∈ _dependencies rule → d ∉ get_rule_id <$> pre →
  (∃ why st,
     apply_scoring_rules c noteStats (pre ++ rule :: post) = Fatal why st
     ∧ (call_rule <$> calls st) `prefix_of` pre)
  ∧ (∀ st, run_rules c noteStats pre initial_state = Done st →
       apply_scoring_rules c noteStats (pre ++ rule :: post) = Fatal UnmetDependencies st
       ∧ call_rule <$> calls st = pre).
Proof.
  intros Hd Hpre.
  assert (Hdone : ∀ st, run_rules c noteStats pre initial_state = Done st →
    apply_scoring_rules c noteStats (pre ++ rule :: post) = Fatal UnmetDependencies st
    ∧ call_rule <$> calls st = pre).
  { intros st Hrun. destruct (invariant_completed c noteStats pre st Hrun) as [Hids Hcalls _ _ _].
    split; [|done]. apply apply_scoring_rules_Fatal. rewrite run_rules_app, Hrun. simpl.
    rewrite apply_rule_unmet; [done|]. apply not_true_iff_false.
    rewrite check_dependencies_true, Hids. intros Hsub. apply Hpre.
    by apply (elem_of_list_to_set (C:=gset RuleID)), Hsub. }
  split; [|done].
  destruct (run_rules c noteStats pre initial_state) as [st|why st] eqn:Hrun.
  - exists UnmetDependencies, st. destruct (Hdone st eq_refl) as [-> ->]. done.
  - exists why, st. split.
    + apply apply_scoring_rules_Fatal. by rewrite run_rules_app, Hrun.
    + destruct (run_rules_calls c noteStats pre initial_state) as [k Hk].
      rewrite Hrun in Hk. simpl in Hk. rewrite Hk. apply prefix_take.
Qed.

(** C6: when the rules before [rule] complete and [rule], once called,
    returns a supplemental frame whose ids differ from the matched ids, the
    run aborts at the assertion on the ids: the rule was called, but the
    label, audit and column tables are those the earlier rules left, and no
    later rule was called. *)
Theorem supplemental_id_mismatch_aborts pre rule post st activeNotes add :
  run_rules c noteStats pre initial_state = Done st →
  _dependencies rule ⊆ list_to_set (get_rule_id <$> pre) →
  get_rule_id rule ∉ get_rule_id <$> pre →
  score_notes rule noteStats (noteLabels st) = Some (activeNotes, Some add) →
  id_set activeNotes ≠ id_set (frame_rows add).*1 →
  ∃ st',
    apply_scoring_rules c noteStats (pre ++ rule :: post)
    = Fatal SupplementalIdMismatch st'
    ∧ noteLabels st' = noteLabels st
    ∧ noteRules st' = noteRules st
    ∧ noteColumns st' = noteColumns st
    ∧ call_rule <$> calls st' = pre ++ [rule].
Proof.
  intros Hrun Hdeps Hfresh Hscore Hne.
  destruct (invariant_completed c noteStats pre st Hrun) as [Hids Hcalls _ _ _].
  exists (enter_rule rule (Some (activeNotes, Some add)) st). split_and!; try done.
  - apply apply_scoring_rules_Fatal. rewrite run_rules_app, Hrun. simpl.
    rewrite (apply_rule_mismatch c noteStats st rule activeNotes add); try done.
    + apply check_dependencies_true. by rewrite Hids.
    + by rewrite Hids, elem_of_list_to_set.
  - simpl. by rewrite fmap_app, Hcalls.
Qed.

Lemma columns_ok_false noteColumns add field :
  field ∈ frame_columns noteColumns → field ∈ frame_columns add →
  field ≠ noteIdKey c → columns_ok c noteColumns add = false.
Proof.
  intros H1 H2 Hne. unfold columns_ok, columns. apply bool_decide_eq_false_2.
  intros Heq. apply Hne, (elem_of_singleton (C:=gset string)). rewrite Heq.
  apply elem_of_intersection. rewrite !elem_of_list_to_set, !elem_of_cons. auto.
Qed.

(** C7: when an earlier rule of a run returned a supplemental column named
    [field] and a later rule, whose other checks pass, returns a column of
    the same name, the run aborts at the assertion on the column names while
    that rule's columns are merged; there is no output table. *)
Theorem column_collision_aborts pre rule post st cl field activeNotes add :
  run_rules c noteStats pre initial_state = Done st →
  cl ∈ calls st → field ∈ supplemental_columns cl →
  _dependencies rule ⊆ list_to_set (get_rule_id <$> pre) →
  get_rule_id rule ∉ get_rule_id <$> pre →
  score_notes rule noteStats (noteLabels st) = Some (activeNotes, Some add) →
  id_set activeNotes = id_set (frame_rows add).*1 →
  field ∈ frame_columns add → field ≠ noteIdKey c →
  call_rule cl ∈ pre
  ∧ apply_scoring_rules c noteStats (pre ++ rule :: post)
    = Fatal ColumnCollision (merged rule activeNotes (Some add) st).
Proof.
  intros Hrun Hcl Hfield Hdeps Hfresh Hscore Hids Hadd Hne.
  destruct (invariant_completed c noteStats pre st Hrun) as [Hrids Hcalls _ Hcols _].
  split.
  - rewrite <-Hcalls. by apply list_elem_of_fmap_2.
  - apply apply_scoring_rules_Fatal. rewrite run_rules_app, Hrun. simpl.
    rewrite (apply_rule_collision c noteStats st rule activeNotes add); try done.
    + apply check_dependencies_true. by rewrite Hrids.
    + by rewrite Hrids, elem_of_list_to_set.
    + apply (columns_ok_false _ _ field); try done.
      rewrite Hcols. apply list_elem_of_bind. by exists cl.
Qed.

End Aborts.

(** ** The audit column *)

Section Audit.
Context (c : constants) (noteStats : list note).

Lemma audit_rows_with_key i (cls : list call) :
  Forall (λ cl, NoDup (matched cl)) cls →
  rows_with_key i (cls ≫= audit_rows)
  = get_name ∘ call_rule <$> filter (λ cl, i ∈ matched cl) cls.
Proof.
  induction 1 as [|cl cls Hcl _ IH]; [done|].
  rewrite bind_cons, rows_with_key_app, IH, filter_cons. unfold audit_rows at 1.
  rewrite rows_with_key_const by done. by case_decide.
Qed.

(** C8: in a completed run whose rules returned their matched notes without
    repetition, every input note has a row in the returned table, and the
    audit column of that row, as of every row of the table, is the
    comma-separated join of the display names of the rules whose matched
    notes contain the note, in the order in which the rules were applied; a
    display name is ["<name> (v<version>)"]. *)
Theorem activeRules_audit rules out st :
  apply_scoring_rules c noteStats rules = Done out →
  run_rules c noteStats rules initial_state = Done st →
  Forall (λ cl, NoDup (matched cl)) (calls st) →
  (∀ rule, get_name rule
           = ruleName (value (get_rule_id rule)) +:+ " (v"
             +:+ ruleVersion (value (get_rule_id rule)) +:+ ")")
  ∧ call_rule <$> calls st = rules
  ∧ (∀ n, n ∈ noteStats →
       ∃ row, row ∈ scored_rows out ∧ sn_note row = n
         ∧ sn_activeRules row
           = String.concat ","
               (get_name ∘ call_rule
                  <$> filter (λ cl, note_id n ∈ matched cl) (calls st)))
  ∧ (∀ row, row ∈ scored_rows out →
       sn_note row ∈ noteStats
       ∧ sn_activeRules row
         = String.concat ","
             (get_name ∘ call_rule
                <$> filter (λ cl, note_id (sn_note row) ∈ matched cl) (calls st))).
Proof.
  intros (st' & Hrun & [_ Hcalls Hrules _ _] & Hrows & _ & Hr)%apply_scoring_rules_Done.
  rewrite Hrun. intros [= <-] Hnd.
  assert (Haudit : ∀ n, n ∈ noteStats →
            sn_activeRules (scored_row c st' n)
            = String.concat ","
                (get_name ∘ call_rule
                   <$> filter (λ cl, note_id n ∈ matched cl) (calls st'))).
  { intros n Hn. rewrite scored_row_rules. unfold get_key.
    rewrite rows_with_key_join_column, rows_with_key_groupby.
    - simpl. by rewrite Hrules, audit_rows_with_key.
    - apply Hr. by apply list_elem_of_fmap_2. }
  split_and!; try done.
  - intros n Hn. exists (scored_row c st' n). rewrite Hrows.
    split_and!; [by apply list_elem_of_fmap_2|done|by apply Haudit].
  - intros row Hrow. rewrite Hrows in Hrow.
    apply list_elem_of_fmap in Hrow as (n & -> & Hn).
    rewrite scored_row_note. split; [done|by apply Haudit].
Qed.

End Audit.

(** ** Steps that fail on the supplemental ids *)

Section Mismatch.
Context (c : constants) (noteStats : list note).

Lemma apply_rule_mismatch_inv st rule st' :
  apply_rule c noteStats st rule = Fatal SupplementalIdMismatch st' →
  ∃ activeNotes add,
    score_notes rule noteStats (noteLabels st) = Some (activeNotes, Some add)
    ∧ id_set activeNotes ≠ id_set (frame_rows add).*1.
Proof.
  unfold apply_rule. destruct (check_dependencies rule (ruleIDs st)); simpl; [|done].
  case_bool_decide; [done|].
  destruct (score_notes rule noteStats (noteLabels st)) as [[activeNotes [add|]]|];
    simpl; try done.
  case_bool_decide as Hids; simpl.
  - by destruct (columns_ok c (noteColumns st) add).
  - intros _. by exists activeNotes, add.
Qed.

End Mismatch.

(** ** What the tag-outlier filter matches *)

Section TagFilterClaims.
Context (c : constants) (tag_filter : tag_filter_module).
Context (tagRatioPercentile : Z) (minAdjustedTotal crhSuperThreshold : float).
Context (noteStats : list note) (currentLabels : list (Z * string)).

Lemma elem_of_activeNotes i activeNotes add :
  FilterTagOutliers_score_notes c tag_filter tagRatioPercentile minAdjustedTotal
    crhSuperThreshold noteStats currentLabels = Some (activeNotes, add) →
  i ∈ activeNotes
  ↔ ∃ tag, (i, tag) ∈ impacted_pairs c tag_filter tagRatioPercentile minAdjustedTotal
                         crhSuperThreshold noteStats currentLabels.
Proof.
  rewrite FilterTagOutliers_score_notes_eq. intros [= <- _].
  rewrite elem_of_group_keys, list_elem_of_fmap. split.
  - intros ([i' tag] & -> & Hin). by exists tag.
  - intros [tag Hin]. by exists (i, tag).
Qed.

(** C3: for a note labelled CRH (in a table with pairwise distinct ids) and a
    tag of the fixed list that is not exempted, the pair (note, tag) is
    recorded exactly when the adjusted total exceeds [minAdjustedTotal], the
    adjusted ratio exceeds the provider's threshold of the tag's ratio column
    and the intercept is below [crhSuperThreshold]; a note whose intercept is
    at or above [crhSuperThreshold] is not matched; and no pair is recorded
    for an exempted tag. *)
Theorem FilterTagOutliers_trigger_condition r :
  NoDup (note_id <$> noteStats) →
  r ∈ noteStats →
  (note_id r, currentlyRatedHelpful c) ∈ currentLabels →
  let thresholds :=
    get_tag_thresholds tag_filter (crhStats c noteStats currentLabels) tagRatioPercentile in
  let pairs :=
    impacted_pairs c tag_filter tagRatioPercentile minAdjustedTotal crhSuperThreshold
                   noteStats currentLabels in
  (∀ tag, tag ∈ notHelpfulTagsTSVOrder c →
     tag ≠ notHelpfulHardToUnderstandKey c → tag ≠ notHelpfulNoteNotNeededKey c →
     (note_id r, tag) ∈ pairs
     ↔ float_gt (note_num r (tag +:+ adjustedSuffix c)) minAdjustedTotal = true
       ∧ float_gt (note_num r ((tag +:+ adjustedSuffix c) +:+ ratioSuffix c))
                  (thresholds ((tag +:+ adjustedSuffix c) +:+ ratioSuffix c)) = true
       ∧ float_lt (note_num r (noteInterceptKey c)) crhSuperThreshold = true)
  ∧ (float_ge (note_num r (noteInterceptKey c)) crhSuperThreshold = true →
     ∀ activeNotes add,
       FilterTagOutliers_score_notes c tag_filter tagRatioPercentile minAdjustedTotal
         crhSuperThreshold noteStats currentLabels = Some (activeNotes, add) →
       note_id r ∉ activeNotes)
  ∧ (∀ i tag,
       tag = notHelpfulHardToUnderstandKey c ∨ tag = notHelpfulNoteNotNeededKey c →
       (i, tag) ∉ pairs).
Proof.
  intros Hnd Hr Hcrh. cbv zeta.
  assert (Hmine : ∀ r', r' ∈ crhStats c noteStats currentLabels →
            note_id r' = note_id r → r' = r).
  { intros r' [Hr' _]%elem_of_crhStats Hid.
    by apply (NoDup_key_inj note_id noteStats r' r Hnd). }
  split_and!.
  - intros tag Htag Hne1 Hne2.
    rewrite elem_of_impacted_pairs, <-tag_triggers_true. split.
    + intros (_ & _ & r' & Hr' & Hid & Htr). by rewrite <-(Hmine r' Hr' Hid).
    + intros Htr. split_and!; [done|by apply is_exempt_false|].
      exists r. split_and!; try done. by apply elem_of_crhStats.
  - intros Hge activeNotes add Hscore [tag Hin]%(elem_of_activeNotes _ _ _ Hscore).
    apply elem_of_impacted_pairs in Hin as (_ & _ & r' & Hr' & Hid & Htr).
    rewrite (Hmine r' Hr' Hid) in Htr.
    apply tag_triggers_true in Htr as (_ & _ & Hlt).
    apply float_lt_not_ge in Hlt. congruence.
  - intros i tag Hex Hin.
    apply elem_of_impacted_pairs in Hin as (_ & Hno%is_exempt_false & _). tauto.
Qed.

(** C5: for a note matched by [FilterTagOutliers] (in tables with pairwise
    distinct ids), the supplemental frame has the single column
    [activeFilterTags] and one row for the note, whose cell is the
    comma-separated join of the tags that trigger for the note, in the order
    of the fixed tag list; at least one tag triggers; and when the triggering
    tags are "spam" and "harassment" the cell is ["spam,harassment"]. *)
Theorem FilterTagOutliers_activeFilterTags activeNotes add i :
  NoDup (note_id <$> noteStats) → NoDup currentLabels.*1 →
  FilterTagOutliers_score_notes c tag_filter tagRatioPercentile minAdjustedTotal
    crhSuperThreshold noteStats currentLabels = Some (activeNotes, Some add) →
  i ∈ activeNotes →
  frame_columns add = [activeFilterTagsKey c]
  ∧ ∃ r, r ∈ noteStats ∧ note_id r = i
      ∧ (i, currentlyRatedHelpful c) ∈ currentLabels
      ∧ let tags :=
          triggering_tags c minAdjustedTotal crhSuperThreshold
            (get_tag_thresholds tag_filter (crhStats c noteStats currentLabels)
                                tagRatioPercentile) r in
        rows_with_key i (frame_rows add) = [[CellStr (String.concat "," tags)]]
        ∧ tags ≠ []
        ∧ (tags = ["spam"; "harassment"] →
           rows_with_key i (frame_rows add) = [[CellStr "spam,harassment"]]).
Proof.
  intros Hn Hl Hscore Hi.
  pose proof (proj1 (elem_of_activeNotes _ _ _ Hscore) Hi) as [tag Hin].
  rewrite FilterTagOutliers_score_notes_eq in Hscore. injection Hscore as _ <-.
  split; [done|].
  apply elem_of_impacted_pairs in Hin as Hin'.
  destruct Hin' as (_ & _ & r & Hr & <- & _).
  apply elem_of_crhStats in Hr as Hr'. destruct Hr' as [Hr1 Hr2].
  exists r. split_and!; try done. simpl.
  assert (rows_with_key (note_id r)
            (impacted_pairs c tag_filter tagRatioPercentile minAdjustedTotal
               crhSuperThreshold noteStats currentLabels)
          = triggering_tags c minAdjustedTotal crhSuperThreshold
              (get_tag_thresholds tag_filter (crhStats c noteStats currentLabels)
                 tagRatioPercentile) r) as Htags
    by by apply rows_with_key_pairs.
  assert (Hrow : rows_with_key (note_id r)
      ((λ r0 : Z * string, (r0.1, [CellStr r0.2])) <$>
       join_column (groupby_aggregate_list
         (impacted_pairs c tag_filter tagRatioPercentile minAdjustedTotal
            crhSuperThreshold noteStats currentLabels)))
    = [[CellStr (String.concat "," (triggering_tags c minAdjustedTotal crhSuperThreshold
         (get_tag_thresholds tag_filter (crhStats c noteStats currentLabels)
            tagRatioPercentile) r))]]).
  { rewrite (rows_with_key_fmap_snd (λ s, [CellStr s])), rows_with_key_join_column.
    rewrite rows_with_key_groupby by by apply (list_elem_of_fmap_2 fst _ (note_id r, tag)).
    by rewrite Htags. }
  split_and!.
  - done.
  - rewrite <-Htags. intros Hnil. apply elem_of_rows_with_key in Hin.
    rewrite Hnil in Hin. by apply elem_of_nil in Hin.
  - intros Heq. by rewrite Hrow, Heq.
Qed.

(** C10: [FilterTagOutliers.score_notes] always returns, with a supplemental
    frame whose ids are, as a set, the matched ids; hence a step of the
    engine that runs this rule never aborts at the assertion on the ids. *)
Theorem FilterTagOutliers_supplemental_ids ruleID status dependencies :
  let rule :=
    FilterTagOutliers c tag_filter ruleID status dependencies tagRatioPercentile
                      minAdjustedTotal crhSuperThreshold in
  (∃ activeNotes add,
     score_notes rule noteStats currentLabels = Some (activeNotes, Some add)
     ∧ id_set activeNotes = id_set (frame_rows add).*1)
  ∧ ∀ c' st st', apply_rule c' noteStats st rule ≠ Fatal SupplementalIdMismatch st'.
Proof.
  assert (Hids : ∀ labels activeNotes add,
    FilterTagOutliers_score_notes c tag_filter tagRatioPercentile minAdjustedTotal
      crhSuperThreshold noteStats labels = Some (activeNotes, Some add) →
    id_set activeNotes = id_set (frame_rows add).*1).
  { intros labels activeNotes add [= <- <-]. apply id_set_eq_elem_of. intros k. simpl.
    rewrite elem_of_drop_duplicates.
    by rewrite (fst_fmap_keyed fst (λ r : Z * string, [CellStr r.2])). }
  split.
  - simpl. eexists _, _. split; [reflexivity|]. by apply (Hids currentLabels).
  - intros c' st st' (activeNotes & add & Hscore & Hne)%apply_rule_mismatch_inv.
    by apply Hne, (Hids (noteLabels st)).
Qed.

End TagFilterClaims.

(** * Further properties of the code *)

(** ** More on the steps of the loop *)

Section StepState.
Context (c : constants) (noteStats : list note).

(** The state a completed step leaves, variable by variable. *)
Lemma apply_rule_Done_state st rule st' :
  apply_rule c noteStats st rule = Done st' →
  ∃ activeNotes add,
    score_notes rule noteStats (noteLabels st) = Some (activeNotes, add)
    ∧ supplemental_ids_ok activeNotes add = true
    ∧ calls st' = calls st ++ [{| call_rule := rule; call_result := Some (activeNotes, add) |}]
    ∧ noteLabels st'
      = groupby_tail1 (noteLabels st ++ ((λ i, (i, get_status rule)) <$> activeNotes))
    ∧ noteRules st' = noteRules st ++ ((λ i, (i, get_name rule)) <$> activeNotes)
    ∧ noteColumns st'
      = match add with
        | None => noteColumns st
        | Some a => merge_outer (noteColumns st) a
        end
    ∧ ruleIDs st' = ruleIDs st ∪ {[get_rule_id rule]}
    ∧ _dependencies rule ⊆ ruleIDs st
    ∧ (get_rule_id rule ∉ ruleIDs st).
Proof.
  intros (activeNotes & add & Hdeps & Hfresh & Hscore & Hok & Hst')%apply_rule_Done.
  exists activeNotes, add. apply check_dependencies_true in Hdeps.
  destruct add as [a|]; [destruct Hst' as [_ ->]|subst st']; done.
Qed.

(** A property of the states that every completed step keeps holds after a
    completed loop. *)
Lemma run_rules_invariant (P : run_state → Prop) rules st st' :
  (∀ st1 rule st2, P st1 → apply_rule c noteStats st1 rule = Done st2 → P st2) →
  P st → run_rules c noteStats rules st = Done st' → P st'.
Proof.
  intros Hstep. revert st. induction rules as [|rule rules IH]; intros st HP; simpl.
  - by intros [= <-].
  - destruct (apply_rule c noteStats st rule) as [st1|] eqn:H1; [|done].
    apply IH. by eapply Hstep.
Qed.

End StepState.

(** ** Outer merges *)

Section RowsOfKey.
Context {V : Type}.
Implicit Types (rows : list (Z * V)) (k : Z).

Lemma rows_with_key_nonempty k rows : k ∈ rows.*1 ↔ rows_with_key k rows ≠ [].
Proof.
  split.
  - intros [[k' v] [-> Hin]]%list_elem_of_fmap Hnil. simpl in Hnil.
    apply elem_of_rows_with_key in Hin. rewrite Hnil in Hin. by apply elem_of_nil in Hin.
  - intros Hne. destruct (decide (k ∈ rows.*1)) as [|Hn]; [done|].
    by rewrite rows_with_key_absent in Hne.
Qed.

Lemma rows_with_key_at_most_one k rows :
  NoDup rows.*1 → length (rows_with_key k rows) ≤ 1.
Proof.
  intros Hnd. destruct (decide (k ∈ rows.*1)) as [Hin|Hn].
  - destruct (rows_with_key_length_NoDup k rows Hnd Hin) as (v & _ & ->). done.
  - rewrite rows_with_key_absent by done. simpl. lia.
Qed.

Lemma NoDup_at_most_one rows :
  (∀ k, length (rows_with_key k rows) ≤ 1) → NoDup rows.*1.
Proof.
  induction rows as [|r rows IH]; intros Hlen; [apply NoDup_nil_2|].
  rewrite fmap_cons. apply NoDup_cons. split.
  - intros Hin%rows_with_key_nonempty. specialize (Hlen r.1).
    rewrite rows_with_key_cons, decide_True in Hlen by done.
    destruct (rows_with_key r.1 rows); [done|]. simpl in Hlen. lia.
  - apply IH. intros k. specialize (Hlen k). rewrite rows_with_key_cons in Hlen.
    case_decide; simpl in Hlen; lia.
Qed.

End RowsOfKey.

Lemma bind_only_key {B} (k : Z) (rows : list B) (keys : list Z) :
  NoDup keys →
  keys ≫= (λ k', if decide (k' = k) then rows else [])
  = if decide (k ∈ keys) then rows else [].
Proof.
  induction keys as [|k' keys IH]; intros Hnd.
  - by rewrite decide_False by apply not_elem_of_nil.
  - apply NoDup_cons in Hnd as [Hk' Hnd]. rewrite bind_cons, IH by done.
    destruct (decide (k' = k)) as [->|Hne].
    + rewrite decide_False by done. rewrite app_nil_r.
      by rewrite decide_True by apply list_elem_of_here.
    + simpl. destruct (decide (k ∈ keys)) as [Hin|Hn].
      * by rewrite decide_True by by apply list_elem_of_further.
      * rewrite decide_False; [done|]. intros [?|?]%elem_of_cons; congruence.
Qed.

(** The rows of an outer merge for one id: every row of the left frame with
    that id paired with every such row of the right frame, a side without
    the id standing in with one row of NaN. *)
Lemma merge_outer_rows_with_key (l r : frame) (k : Z) :
  rows_with_key k (frame_rows (merge_outer l r))
  = if decide (k ∈ (frame_rows l).*1 ++ (frame_rows r).*1)
    then or_missing (nan_row (frame_columns l)) (rows_with_key k (frame_rows l))
           ≫= λ a, (λ b, a ++ b) <$>
                or_missing (nan_row (frame_columns r)) (rows_with_key k (frame_rows r))
    else [].
Proof.
  unfold merge_outer. simpl. rewrite rows_with_key_bind.
  set (Z := or_missing (nan_row (frame_columns l)) (rows_with_key k (frame_rows l))
              ≫= λ a, (λ b, a ++ b) <$>
                   or_missing (nan_row (frame_columns r)) (rows_with_key k (frame_rows r))).
  transitivity (group_keys ((frame_rows l).*1 ++ (frame_rows r).*1)
                  ≫= λ k', if decide (k' = k) then Z else []).
  - apply list_bind_ext; [|done]. intros k'. rewrite rows_with_key_bind.
    case_decide as Hk.
    + subst k' Z. apply list_bind_ext; [|done]. intros a.
      induction (or_missing (nan_row (frame_columns r)) (rows_with_key k (frame_rows r)))
        as [|b bs IH]; [done|].
      rewrite !fmap_cons, rows_with_key_cons. simpl. rewrite decide_True by done.
      by rewrite IH.
    + induction (or_missing (nan_row (frame_columns l)) (rows_with_key k' (frame_rows l)))
        as [|a als IH]; [done|].
      rewrite bind_cons, IH, app_nil_r. apply rows_with_key_absent.
      rewrite <-list_fmap_compose. intros (b & Hb & _)%list_elem_of_fmap.
      simpl in Hb. congruence.
  - rewrite bind_only_key by apply NoDup_group_keys.
    destruct (decide (k ∈ group_keys ((frame_rows l).*1 ++ (frame_rows r).*1)))
      as [Hin|Hn]; rewrite elem_of_group_keys in *.
    + by rewrite decide_True.
    + by rewrite decide_False.
Qed.

Lemma or_missing_nonempty {B} (m : B) (bs : list B) : or_missing m bs ≠ [].
Proof. by destruct bs. Qed.

Lemma elem_of_merge_outer_ids (l r : frame) (k : Z) :
  k ∈ (frame_rows (merge_outer l r)).*1 ↔ k ∈ (frame_rows l).*1 ∨ k ∈ (frame_rows r).*1.
Proof.
  rewrite rows_with_key_nonempty, merge_outer_rows_with_key, <-elem_of_app.
  case_decide as Hin; [|tauto]. split; [done|]. intros _.
  pose proof (or_missing_nonempty (nan_row (frame_columns l))
                (rows_with_key k (frame_rows l))) as Hl.
  pose proof (or_missing_nonempty (nan_row (frame_columns r))
                (rows_with_key k (frame_rows r))) as Hr.
  destruct (or_missing (nan_row (frame_columns l)) (rows_with_key k (frame_rows l)));
    [done|].
  destruct (or_missing (nan_row (frame_columns r)) (rows_with_key k (frame_rows r)));
    done.
Qed.

Lemma or_missing_one {B} (m : B) (bs : list B) :
  length bs ≤ 1 → length (or_missing m bs) = 1.
Proof. destruct bs as [|b [|]]; simpl; lia. Qed.

Lemma NoDup_merge_outer_ids (l r : frame) :
  NoDup (frame_rows l).*1 → NoDup (frame_rows r).*1 →
  NoDup (frame_rows (merge_outer l r)).*1.
Proof.
  intros Hl Hr. apply NoDup_at_most_one. intros k. rewrite merge_outer_rows_with_key.
  case_decide; [|simpl; lia].
  pose proof (or_missing_one (nan_row (frame_columns l)) _
                (rows_with_key_at_most_one k _ Hl)) as H1.
  pose proof (or_missing_one (nan_row (frame_columns r)) _
                (rows_with_key_at_most_one k _ Hr)) as H2.
  destruct (or_missing (nan_row (frame_columns l)) (rows_with_key k (frame_rows l)))
    as [|a [|]]; try done.
  rewrite bind_cons, app_nil_r, length_fmap. simpl. lia.
Qed.

Section RunFacts.
Context (c : constants) (noteStats : list note).

Lemma status_of_calls_snoc k cls cl :
  status_of_calls k (cls ++ [cl])
  = if decide (k ∈ matched cl) then Some (get_status (call_rule cl))
    else status_of_calls k cls.
Proof.
  unfold status_of_calls. rewrite filter_app, fmap_app, filter_cons, filter_nil.
  case_decide.
  - change (get_status ∘ call_rule <$> [cl]) with [get_status (call_rule cl)].
    by rewrite last_snoc.
  - by rewrite app_nil_r.
Qed.

Lemma status_of_calls_Some k cls s :
  status_of_calls k cls = Some s → ∃ cl, cl ∈ cls ∧ k ∈ matched cl.
Proof.
  unfold status_of_calls. intros Hlast.
  destruct (filter (λ cl, k ∈ matched cl) cls) as [|cl rest] eqn:Hf; [done|].
  exists cl. apply and_comm, (list_elem_of_filter (λ cl, k ∈ matched cl)).
  rewrite Hf. by left.
Qed.

Lemma status_of_calls_is_Some k cls cl :
  cl ∈ cls → k ∈ matched cl → is_Some (status_of_calls k cls).
Proof.
  unfold status_of_calls. intros Hcl Hk.
  assert (cl ∈ filter (λ cl, k ∈ matched cl) cls) as Hin by by apply list_elem_of_filter.
  destruct (filter (λ cl, k ∈ matched cl) cls) as [|cl' rest] using rev_ind.
  - by apply elem_of_nil in Hin.
  - rewrite fmap_app.
    change (get_status ∘ call_rule <$> [cl']) with [get_status (call_rule cl')].
    rewrite last_snoc. by eexists.
Qed.

Lemma facts_initial : run_facts initial_state.
Proof.
  split; simpl.
  - apply NoDup_nil_2.
  - intros k s. split; [by intros ?%elem_of_nil|done].
  - intros k. split; [by intros ?%elem_of_nil|]. by intros (cl & ?%elem_of_nil & _).
  - by intros cl k ?%elem_of_nil.
  - intros _. apply NoDup_nil_2.
Qed.

Lemma facts_step st rule st' :
  run_facts st → apply_rule c noteStats st rule = Done st' → run_facts st'.
Proof.
  intros [Hnd Hstatus Hcols Hsupp Hone]
    (activeNotes & add & _ & Hok & Hcalls & Hlabels & _ & Hcolumns & _)%apply_rule_Done_state.
  set (cl := {| call_rule := rule; call_result := Some (activeNotes, add) |}) in *.
  assert (Hnew : ∀ k, k ∈ supplemental_ids cl → k ∈ matched cl).
  { intros k. unfold supplemental_ids, matched. simpl. destruct add as [a|]; simpl in *.
    - apply bool_decide_eq_true_1 in Hok. intros Hk.
      apply (elem_of_list_to_set (C:=gset Z)). unfold id_set in Hok. rewrite Hok.
      by apply elem_of_list_to_set.
    - by intros ?%elem_of_nil. }
  assert (Hcolids : ∀ k, k ∈ (frame_rows (noteColumns st')).*1
                         ↔ k ∈ (frame_rows (noteColumns st)).*1 ∨ k ∈ supplemental_ids cl).
  { intros k. rewrite Hcolumns. unfold supplemental_ids. simpl. destruct add as [a|].
    - apply elem_of_merge_outer_ids.
    - rewrite elem_of_nil. tauto. }
  split.
  - rewrite Hlabels. apply NoDup_groupby_tail1.
  - intros k s. rewrite Hlabels, Hcalls, status_of_calls_snoc, overwritten_labels by done.
    change (matched cl) with activeNotes. simpl.
    case_decide; [|apply Hstatus]. split; congruence.
  - intros k. rewrite Hcolids, Hcols, Hcalls. split.
    + intros [(cl' & Hcl' & Hk)|Hk].
      * exists cl'. split; [|done]. apply elem_of_app. by left.
      * exists cl. split; [|done]. apply elem_of_app. right. by left.
    + intros (cl' & [Hcl'|Hcl']%elem_of_app & Hk).
      * left. by exists cl'.
      * right. apply list_elem_of_singleton in Hcl'. by subst.
  - intros cl' k. rewrite Hcalls. intros [Hcl'|Hcl']%elem_of_app Hk.
    + by apply (Hsupp cl').
    + apply list_elem_of_singleton in Hcl'. subst. by apply Hnew.
  - rewrite Hcalls, Forall_app, Forall_singleton. intros [Hall Hcl].
    rewrite Hcolumns. unfold supplemental_ids in Hcl. simpl in Hcl.
    destruct add as [a|]; [|by apply Hone]. apply NoDup_merge_outer_ids; auto.
Qed.

Lemma facts_completed rules st :
  run_rules c noteStats rules initial_state = Done st → run_facts st.
Proof.
  apply (run_rules_invariant c noteStats run_facts); [|apply facts_initial].
  intros st1 rule st2. apply facts_step.
Qed.

Lemma labelled_iff_matched rules st k :
  run_rules c noteStats rules initial_state = Done st →
  k ∈ (noteLabels st).*1 ↔ ∃ cl, cl ∈ calls st ∧ k ∈ matched cl.
Proof.
  intros [_ Hstatus _ _ _]%facts_completed. split.
  - intros ([k' s] & -> & Hin)%list_elem_of_fmap. simpl.
    apply Hstatus in Hin. by eapply status_of_calls_Some.
  - intros (cl & Hcl & Hk). destruct (status_of_calls_is_Some k _ cl Hcl Hk) as [s Hs].
    apply Hstatus in Hs. by apply (list_elem_of_fmap_2 fst _ (k, s)).
Qed.

End RunFacts.

Section RuleContract.
Context (c : constants) (noteStats : list note).

Lemma apply_rule_repeated st rule :
  check_dependencies rule (ruleIDs st) = true → get_rule_id rule ∈ ruleIDs st →
  apply_rule c noteStats st rule = Fatal RepeatedRuleID st.
Proof.
  intros Hd Hin. unfold apply_rule. rewrite Hd. simpl. by rewrite bool_decide_eq_true_2.
Qed.

(** X1: a rule whose identity is that of an earlier rule makes the run abort
    at the assertion on repeated identities (when its prerequisites are met
    and the earlier rules complete), in the state the earlier rules left: its
    [score_notes] is not called. *)
Theorem repeated_rule_id_aborts pre rule post st :
  run_rules c noteStats pre initial_state = Done st →
  _dependencies rule ⊆ list_to_set (get_rule_id <$> pre) →
  get_rule_id rule ∈ get_rule_id <$> pre →
  apply_scoring_rules c noteStats (pre ++ rule :: post) = Fatal RepeatedRuleID st
  ∧ call_rule <$> calls st = pre.
Proof.
  intros Hrun Hdeps Hin.
  destruct (invariant_completed c noteStats pre st Hrun) as [Hids Hcalls _ _ _].
  split; [|done]. apply apply_scoring_rules_Fatal. rewrite run_rules_app, Hrun. simpl.
  rewrite apply_rule_repeated; [done| |].
  - apply check_dependencies_true. by rewrite Hids.
  - by rewrite Hids, elem_of_list_to_set.
Qed.

Lemma run_rules_contract rules st st' :
  run_rules c noteStats rules st = Done st' →
  respects_dependencies_from (ruleIDs st) rules = true
  ∧ NoDup (get_rule_id <$> rules)
  ∧ (∀ rule, rule ∈ rules → get_rule_id rule ∉ ruleIDs st)
  ∧ ruleIDs st' = ruleIDs st ∪ list_to_set (get_rule_id <$> rules).
Proof.
  revert st. induction rules as [|rule rules IH]; intros st; simpl.
  - intros [= <-]. split_and!; [done|apply NoDup_nil_2|by intros ? ?%elem_of_nil|].
    by rewrite union_empty_r_L.
  - destruct (apply_rule c noteStats st rule) as [st1|] eqn:Hstep; [|done].
    intros (Hresp & Hnd & Hfresh & Hids)%IH.
    apply apply_rule_Done_state in Hstep
      as (_ & _ & _ & _ & _ & _ & _ & _ & Hst1 & Hdeps & Hnew).
    rewrite Hst1 in *. split_and!.
    + rewrite Hresp, andb_true_r. by apply check_dependencies_true.
    + apply NoDup_cons. split; [|done].
      intros (rule' & Heq & Hin)%list_elem_of_fmap. apply (Hfresh rule' Hin).
      rewrite <-Heq. apply elem_of_union. right. by apply elem_of_singleton.
    + intros rule' [->|Hin]%elem_of_cons; [done|].
      intros Hold. apply (Hfresh rule' Hin). apply elem_of_union. by left.
    + rewrite Hids. apply set_eq. intros x.
      rewrite !elem_of_union, elem_of_singleton. tauto.
Qed.

Lemma get_name_inj rule1 rule2 :
  get_name rule1 = get_name rule2 → get_rule_id rule1 = get_rule_id rule2.
Proof.
  unfold get_name, get_rule_id.
  destruct (_ruleID rule1), (_ruleID rule2); intros H; vm_compute in H; congruence.
Qed.

Lemma NoDup_get_name rules :
  NoDup (get_rule_id <$> rules) → NoDup (get_name <$> rules).
Proof.
  induction rules as [|rule rules IH]; [intros _; apply NoDup_nil_2|].
  rewrite !fmap_cons, !NoDup_cons.
  intros [Hnew Hnd]. split; [|auto].
  intros (rule' & Hname%get_name_inj & Hin)%list_elem_of_fmap.
  apply Hnew. rewrite Hname. by apply list_elem_of_fmap_2.
Qed.

(** X2: the rules of a completed run have pairwise distinct identities, each
    has its prerequisites among the identities of the rules before it, and
    their display names are pairwise distinct. *)
Theorem completed_run_rule_contract rules out :
  apply_scoring_rules c noteStats rules = Done out →
  NoDup (get_rule_id <$> rules)
  ∧ respects_dependencies rules = true
  ∧ NoDup (get_name <$> rules).
Proof.
  intros (st & Hrun & _)%apply_scoring_rules_Done.
  apply run_rules_contract in Hrun as (Hresp & Hnd & _ & _).
  split_and!; [done|done|]. by apply NoDup_get_name.
Qed.

End RuleContract.

Lemma merge_left_NoDup_length {A B} (key : A → Z) (m : B) (L : list A) (R : list (Z * B)) :
  NoDup R.*1 → length (merge_left key m L R) = length L.
Proof.
  intros Hnd. unfold merge_left. induction L as [|a L IH]; [done|].
  rewrite bind_cons, length_app, length_fmap, IH.
  by rewrite (or_missing_one m _ (rows_with_key_at_most_one (key a) R Hnd)).
Qed.

Lemma or_missing_one_inv {B} (m : B) (bs : list B) :
  length (or_missing m bs) = 1 → length bs ≤ 1.
Proof. destruct bs as [|b [|]]; simpl; lia. Qed.

Section CompletedRun.
Context (c : constants) (noteStats : list note).

(** What the assertions on the supplemental columns and on the row count
    say of a completed run. *)
Lemma finish_Done_columns st out :
  NoDup (noteLabels st).*1 → finish c noteStats st = Done out →
  scored_columns out = frame_columns (noteColumns st)
  ∧ (∀ k, k ∈ (frame_rows (noteColumns st)).*1 → k ∈ note_id <$> noteStats)
  ∧ (∀ n, n ∈ noteStats →
       length (rows_with_key (note_id n) (frame_rows (noteColumns st))) ≤ 1).
Proof.
  intros Hnd Hfin.
  destruct (finish_Done c noteStats st out Hnd Hfin) as (Hcols & _ & Hl & Hr).
  split; [done|]. revert Hfin. unfold finish. simpl.
  case_bool_decide as H1; simpl; [|done].
  case_bool_decide as H2; simpl; [|done].
  case_bool_decide as H3; simpl; [|done].
  case_bool_decide as Hlen; simpl; [|done]. intros _. split.
  - intros k Hk. apply size_empty_inv in H3.
    destruct (decide (k ∈ note_id <$> noteStats)) as [|Hn]; [done|].
    exfalso. apply (not_elem_of_empty (C:=gset Z) k). rewrite <-H3.
    apply elem_of_difference. unfold id_set. by rewrite !elem_of_list_to_set.
  - unfold merge_results in Hlen. simpl in Hlen.
    rewrite (merge_inner_NoDup note_id "") in Hlen;
      [|done|by intros n Hn; apply Hl, list_elem_of_fmap_2].
    rewrite (merge_inner_NoDup _ "") in Hlen.
    + unfold merge_left in Hlen. rewrite <-list_fmap_compose in Hlen.
      match type of Hlen with
      | length (?L ≫= _) = _ =>
          assert (length L = length noteStats) as HL by by rewrite length_fmap
      end.
      rewrite <-HL in Hlen. clear HL.
      apply bind_length_tight in Hlen.
      * intros n Hn. rewrite Forall_fmap, Forall_forall in Hlen.
        specialize (Hlen n Hn). simpl in Hlen. rewrite length_fmap in Hlen.
        by apply or_missing_one_inv in Hlen.
      * intros a. rewrite length_fmap. apply or_missing_length.
    + rewrite join_column_fst, groupby_aggregate_list_fst. apply NoDup_group_keys.
    + intros [n s] (n' & [= -> ->] & Hn)%list_elem_of_fmap. simpl.
      rewrite join_column_fst, groupby_aggregate_list_fst, elem_of_group_keys.
      by apply Hr, list_elem_of_fmap_2.
Qed.

(** When the tables cover exactly the input ids and the supplemental columns
    hold at most one row per id, every assertion after the loop passes. *)
Lemma finish_completes st :
  NoDup (noteLabels st).*1 →
  (∀ k, k ∈ note_id <$> noteStats ↔ k ∈ (noteLabels st).*1) →
  (∀ k, k ∈ note_id <$> noteStats ↔ k ∈ (noteRules st).*1) →
  (∀ k, k ∈ (frame_rows (noteColumns st)).*1 → k ∈ note_id <$> noteStats) →
  NoDup (frame_rows (noteColumns st)).*1 →
  ∃ out, finish c noteStats st = Done out.
Proof.
  intros Hnd Hl Hr Hsub Hc. unfold finish. simpl.
  rewrite bool_decide_eq_true_2 by by apply id_set_eq_elem_of. simpl.
  assert (Hr' : ∀ k, k ∈ note_id <$> noteStats
                     ↔ k ∈ (join_column (groupby_aggregate_list (noteRules st))).*1).
  { intros k. by rewrite Hr, join_column_fst, groupby_aggregate_list_fst, elem_of_group_keys. }
  rewrite bool_decide_eq_true_2 by by apply id_set_eq_elem_of. simpl.
  rewrite bool_decide_eq_true_2.
  2:{ apply size_empty_iff, equiv_empty. intros k [Hk Hn]%elem_of_difference.
      unfold id_set in *. rewrite elem_of_list_to_set in Hk, Hn.
      exfalso. by apply Hn, Hsub. }
  simpl. rewrite bool_decide_eq_true_2; [by eexists|].
  unfold merge_results. simpl. rewrite merge_left_NoDup_length by done.
  rewrite (merge_inner_NoDup _ "").
  - rewrite length_fmap, (merge_inner_NoDup _ ""), length_fmap; [done|done|].
    intros n Hn. apply Hl. by apply list_elem_of_fmap_2.
  - rewrite join_column_fst, groupby_aggregate_list_fst. apply NoDup_group_keys.
  - intros [n s] Hn. simpl. apply Hr'. apply list_elem_of_fmap_2.
    unfold merge_inner in Hn. apply list_elem_of_bind in Hn as (n' & Hn & Hn').
    apply list_elem_of_fmap in Hn as (s' & [= -> ->] & _). done.
Qed.

Lemma noteRules_ids st rules k :
  run_rules c noteStats rules initial_state = Done st →
  k ∈ (noteRules st).*1 ↔ ∃ cl, cl ∈ calls st ∧ k ∈ matched cl.
Proof.
  intros [_ _ Hrules _ _]%invariant_completed. rewrite Hrules. split.
  - intros ([k' s] & -> & (cl & Hin & Hcl)%list_elem_of_bind)%list_elem_of_fmap.
    exists cl. split; [done|]. unfold audit_rows in Hin.
    by apply elem_of_const_rows in Hin as [? _].
  - intros (cl & Hcl & Hk).
    apply (list_elem_of_fmap_2 fst _ (k, get_name (call_rule cl))).
    apply list_elem_of_bind. exists cl. split; [|done]. by apply elem_of_const_rows.
Qed.

(** X3: in a completed run every input note was matched by at least one
    rule, every id a rule matched is an input id, and so is every id of a
    supplemental frame. *)
Theorem completed_run_matches_are_input_ids rules out st :
  apply_scoring_rules c noteStats rules = Done out →
  run_rules c noteStats rules initial_state = Done st →
  (∀ n, n ∈ noteStats → ∃ cl, cl ∈ calls st ∧ note_id n ∈ matched cl)
  ∧ (∀ cl k, cl ∈ calls st → k ∈ matched cl → k ∈ note_id <$> noteStats)
  ∧ (∀ cl k, cl ∈ calls st → k ∈ supplemental_ids cl → k ∈ note_id <$> noteStats).
Proof.
  intros (st' & Hrun & _ & _ & Hl & _)%apply_scoring_rules_Done. rewrite Hrun.
  intros [= ->]. pose proof (facts_completed c noteStats rules st Hrun) as Hfacts.
  assert (Hm : ∀ cl k, cl ∈ calls st → k ∈ matched cl → k ∈ note_id <$> noteStats).
  { intros cl k Hcl Hk. apply Hl, (labelled_iff_matched c noteStats rules st k Hrun).
    by exists cl. }
  split_and!; [|done|].
  - intros n Hn. apply (labelled_iff_matched c noteStats rules st _ Hrun), Hl.
    by apply list_elem_of_fmap_2.
  - intros cl k Hcl Hk. apply (Hm cl k Hcl). by apply (facts_supplemental st Hfacts).
Qed.

(** X4: in a completed run the status of a row is the status of the last
    rule, in the order of application, whose matched notes contain the
    note. *)
Theorem final_status_is_last_match rules out st :
  apply_scoring_rules c noteStats rules = Done out →
  run_rules c noteStats rules initial_state = Done st →
  ∀ row, row ∈ scored_rows out →
    status_of_calls (note_id (sn_note row)) (calls st) = Some (sn_ratingStatus row).
Proof.
  intros (st' & Hrun & _ & Hrows & Hl & _)%apply_scoring_rules_Done. rewrite Hrun.
  intros [= ->] row Hrow. rewrite Hrows in Hrow.
  apply list_elem_of_fmap in Hrow as (n & -> & Hn).
  rewrite scored_row_note, scored_row_status.
  apply (facts_status st (facts_completed c noteStats rules st Hrun)).
  apply get_key_elem_of, Hl. by apply list_elem_of_fmap_2.
Qed.



End CompletedRun.

(** ** Float comparisons with NaN *)

Lemma SFcompare_refl_nan (a : SpecFloat.spec_float) :
  SpecFloat.SFcompare a a = None → a = SpecFloat.S754_nan.
Proof.
  destruct a as [s|s| |s m e]; simpl; intros H; try discriminate H; reflexivity.
Qed.

Lemma SFeqb_refl_nan (a : SpecFloat.spec_float) :
  SpecFloat.SFeqb a a = false → a = SpecFloat.S754_nan.
Proof.
  unfold SpecFloat.SFeqb. destruct (SpecFloat.SFcompare a a) as [o|] eqn:Hc.
  - assert (o = Eq) as ->; [|done].
    destruct a as [s|s| |s m e]; simpl in Hc; try done.
    + by injection Hc as <-.
    + destruct s; by injection Hc as <-.
    + rewrite Z.compare_refl in Hc.
      change (Pos.compare_cont Eq m m) with (Pos.compare m m) in Hc.
      rewrite Pos.compare_refl in Hc. destruct s; by injection Hc as <-.
  - intros _. by apply SFcompare_refl_nan.
Qed.

Lemma is_nan_Prim2SF (x : float) :
  PrimFloat.is_nan x = true → Prim2SF x = SpecFloat.S754_nan.
Proof.
  unfold PrimFloat.is_nan. intros H%negb_true_iff. rewrite FloatAxioms.eqb_spec in H.
  by apply SFeqb_refl_nan.
Qed.

Lemma float_lt_nan_l (x y : float) : PrimFloat.is_nan x = true → float_lt x y = false.
Proof.
  intros Hx%is_nan_Prim2SF. unfold float_lt. rewrite ltb_spec, Hx. done.
Qed.

Lemma float_lt_nan_r (x y : float) : PrimFloat.is_nan y = true → float_lt x y = false.
Proof.
  intros Hy%is_nan_Prim2SF. unfold float_lt. rewrite ltb_spec, Hy.
  unfold SpecFloat.SFltb. by destruct (Prim2SF x).
Qed.

Lemma float_gt_nan_l (x y : float) : PrimFloat.is_nan x = true → float_gt x y = false.
Proof. apply float_lt_nan_r. Qed.

Lemma float_gt_nan_r (x y : float) : PrimFloat.is_nan y = true → float_gt x y = false.
Proof. apply float_lt_nan_l. Qed.

(** ** The rule variants *)

Lemma loc_mask_Some {A} (df : list A) (mask : list bool) rows :
  loc_mask df mask = Some rows →
  length mask = length df
  ∧ rows = (filter (λ p, p.2 = true) (zip df mask)).*1
  ∧ rows `sublist_of` df.
Proof.
  unfold loc_mask. case_decide as Hlen; [|done]. intros [= <-]. split_and!; [done..|].
  trans (zip df mask).*1.
  - apply fmap_sublist, sublist_filter.
  - rewrite fst_zip by lia. done.
Qed.


Section FilterMatches.
Context (c : constants) (tag_filter : tag_filter_module).
Context (tagRatioPercentile : Z) (minAdjustedTotal crhSuperThreshold : float).
Context (noteStats : list note) (currentLabels : list (Z * string)).

Local Abbreviation score :=
  (FilterTagOutliers_score_notes c tag_filter tagRatioPercentile minAdjustedTotal
     crhSuperThreshold noteStats currentLabels).
Local Abbreviation thresholds :=
  (get_tag_thresholds tag_filter (crhStats c noteStats currentLabels) tagRatioPercentile).

Lemma FilterTagOutliers_matched i activeNotes add :
  score = Some (activeNotes, add) →
  i ∈ activeNotes
  ↔ ∃ r tag, r ∈ noteStats ∧ note_id r = i
      ∧ (i, currentlyRatedHelpful c) ∈ currentLabels
      ∧ tag ∈ notHelpfulTagsTSVOrder c ∧ is_exempt c tag = false
      ∧ tag_triggers c minAdjustedTotal crhSuperThreshold thresholds tag r = true.
Proof.
  intros Hscore. rewrite (elem_of_activeNotes _ _ _ _ _ _ _ _ _ _ Hscore). split.
  - intros (tag & (Htag & Hex & r & [Hr Hcrh]%elem_of_crhStats & <- & Htr)%elem_of_impacted_pairs).
    by exists r, tag.
  - intros (r & tag & Hr & <- & Hcrh & Htag & Hex & Htr). exists tag.
    apply elem_of_impacted_pairs. split_and!; try done. exists r.
    split_and!; try done. by apply elem_of_crhStats.
Qed.

Lemma FilterTagOutliers_frame_ids activeNotes add :
  score = Some (activeNotes, Some add) →
  (frame_rows add).*1 = activeNotes ∧ NoDup activeNotes.
Proof.
  rewrite FilterTagOutliers_score_notes_eq. intros [= <- <-]. simpl. split.
  - rewrite (fst_fmap_keyed fst (λ r : Z * string, [CellStr r.2])).
    by rewrite join_column_fst, groupby_aggregate_list_fst.
  - apply NoDup_group_keys.
Qed.

(** X9: [FilterTagOutliers.score_notes] matches exactly the ids of the rows
    of the table that are labelled CRH and trigger on some tag of the fixed
    list that is not exempted; the supplemental frame has one row per matched
    id, in the order of the matched ids, which hold no id twice; and when no
    label is CRH, nothing is matched and the frame is empty. *)
Theorem FilterTagOutliers_matched_notes activeNotes add :
  score = Some (activeNotes, Some add) →
  (∀ i, i ∈ activeNotes
        ↔ ∃ r tag, r ∈ noteStats ∧ note_id r = i
            ∧ (i, currentlyRatedHelpful c) ∈ currentLabels
            ∧ tag ∈ notHelpfulTagsTSVOrder c
            ∧ tag ≠ notHelpfulHardToUnderstandKey c
            ∧ tag ≠ notHelpfulNoteNotNeededKey c
            ∧ tag_triggers c minAdjustedTotal crhSuperThreshold thresholds tag r = true)
  ∧ (frame_rows add).*1 = activeNotes
  ∧ NoDup activeNotes
  ∧ ((∀ i, (i, currentlyRatedHelpful c) ∉ currentLabels) →
     activeNotes = [] ∧ frame_rows add = []).
Proof.
  intros Hscore. destruct (FilterTagOutliers_frame_ids _ _ Hscore) as [Hids Hnd].
  assert (Hm : ∀ i, i ∈ activeNotes
        ↔ ∃ r tag, r ∈ noteStats ∧ note_id r = i
            ∧ (i, currentlyRatedHelpful c) ∈ currentLabels
            ∧ tag ∈ notHelpfulTagsTSVOrder c
            ∧ tag ≠ notHelpfulHardToUnderstandKey c
            ∧ tag ≠ notHelpfulNoteNotNeededKey c
            ∧ tag_triggers c minAdjustedTotal crhSuperThreshold thresholds tag r = true).
  { intros i. rewrite (FilterTagOutliers_matched i _ _ Hscore).
    split.
    - intros (r & tag & Hr & Hid & Hcrh & Htag & [Hn1 Hn2]%is_exempt_false & Htr).
      by exists r, tag.
    - intros (r & tag & Hr & Hid & Hcrh & Htag & Hn1 & Hn2 & Htr). exists r, tag.
      split_and!; try done. by apply is_exempt_false. }
  split_and!; try done. intros Hnone.
  assert (activeNotes = []) as ->.
  { apply elem_of_nil_inv. intros i (r & tag & _ & _ & Hcrh & _)%Hm. by apply (Hnone i). }
  split; [done|]. by apply fmap_nil_inv in Hids.
Qed.

(** X10: comparisons with NaN are false, so a NaN never triggers the filter:
    when [crhSuperThreshold] or [minAdjustedTotal] is NaN no note is matched;
    a tag whose threshold is NaN records no pair; and (in a table with
    pairwise distinct ids) a note whose intercept is NaN is not matched. *)
Theorem FilterTagOutliers_NaN activeNotes add :
  score = Some (activeNotes, add) →
  (PrimFloat.is_nan crhSuperThreshold = true ∨ PrimFloat.is_nan minAdjustedTotal = true →
   activeNotes = [])
  ∧ (∀ i tag,
       PrimFloat.is_nan (thresholds ((tag +:+ adjustedSuffix c) +:+ ratioSuffix c)) = true →
       (i, tag) ∉ impacted_pairs c tag_filter tagRatioPercentile minAdjustedTotal
                    crhSuperThreshold noteStats currentLabels)
  ∧ (NoDup (note_id <$> noteStats) →
     ∀ r, r ∈ noteStats → PrimFloat.is_nan (note_num r (noteInterceptKey c)) = true →
          note_id r ∉ activeNotes).
Proof.
  intros Hscore. split_and!.
  - intros Hnan. apply elem_of_nil_inv.
    intros i (r & tag & _ & _ & _ & _ & _ & Htr)%(FilterTagOutliers_matched i _ _ Hscore).
    apply tag_triggers_true in Htr as (Htot & _ & Hlt). destruct Hnan as [Hnan|Hnan].
    + by rewrite float_lt_nan_r in Hlt.
    + by rewrite float_gt_nan_r in Htot.
  - intros i tag Hnan (_ & _ & r & _ & _ & Htr)%elem_of_impacted_pairs.
    apply tag_triggers_true in Htr as (_ & Hratio & _).
    by rewrite float_gt_nan_r in Hratio.
  - intros Hnd r Hr Hnan
      (r' & tag & Hr' & Hid & _ & _ & _ & Htr)%(FilterTagOutliers_matched _ _ _ Hscore).
    rewrite (NoDup_key_inj note_id noteStats r' r Hnd Hr' Hr Hid) in Htr.
    apply tag_triggers_true in Htr as (_ & _ & Hlt). by rewrite float_lt_nan_l in Hlt.
Qed.

End FilterMatches.

Section BuiltinRuns.
Context (c : constants) (tag_filter : tag_filter_module) (noteStats : list note).

Lemma builtin_score rule labels activeNotes add :
  builtin c tag_filter rule → NoDup (note_id <$> noteStats) →
  score_notes rule noteStats labels = Some (activeNotes, add) →
  NoDup activeNotes
  ∧ (∀ k, k ∈ activeNotes → k ∈ note_id <$> noteStats)
  ∧ match add with
    | None => True
    | Some a => (frame_rows a).*1 = activeNotes
    end.
Proof.
  intros [id s d|id s d f|id s d p m t] Hnd; simpl.
  - by intros [= <- <-].
  - destruct (loc_mask noteStats (f noteStats)) as [rows|] eqn:Hmask; [|done].
    intros [= <- <-]. apply loc_mask_Some in Hmask as (_ & _ & Hsub).
    split_and!; [|intros k Hk; by eapply elem_of_sublist, fmap_sublist|done].
    eapply sublist_NoDup; [done|]. by apply fmap_sublist.
  - intros Hscore. destruct add as [a|].
    + destruct (FilterTagOutliers_frame_ids _ _ _ _ _ _ _ _ _ Hscore) as [Hids Hn].
      split_and!; try done.
      intros k (r & _ & Hr & <- & _)%(FilterTagOutliers_matched _ _ _ _ _ _ _ _ _ _ Hscore).
      by apply list_elem_of_fmap_2.
    + by rewrite FilterTagOutliers_score_notes_eq in Hscore.
Qed.

Lemma calls_are_scores rules st :
  run_rules c noteStats rules initial_state = Done st →
  ∀ cl, cl ∈ calls st →
    ∃ labels, call_result cl = score_notes (call_rule cl) noteStats labels.
Proof.
  apply (run_rules_invariant c noteStats
           (λ st, ∀ cl, cl ∈ calls st →
              ∃ labels, call_result cl = score_notes (call_rule cl) noteStats labels)).
  - intros st1 rule st2 IH (activeNotes & add & Hscore & _ & -> & _)%apply_rule_Done_state cl.
    intros [Hcl|Hcl]%elem_of_app; [by apply IH|].
    apply list_elem_of_singleton in Hcl as ->. simpl. by exists (noteLabels st1).
  - by intros cl ?%elem_of_nil.
Qed.

Lemma builtin_calls rules st cl :
  Forall (builtin c tag_filter) rules →
  NoDup (note_id <$> noteStats) →
  run_rules c noteStats rules initial_state = Done st →
  cl ∈ calls st →
  NoDup (matched cl) ∧ NoDup (supplemental_ids cl)
  ∧ ∀ k, k ∈ matched cl → k ∈ note_id <$> noteStats.
Proof.
  intros Hrules Hnd Hrun Hin.
  destruct (invariant_completed c noteStats rules st Hrun) as [_ Hcalls _ _ _].
  destruct (calls_are_scores rules st Hrun cl Hin) as [labels Hres].
  assert (builtin c tag_filter (call_rule cl)) as Hb.
  { rewrite Forall_forall in Hrules. apply Hrules. rewrite <-Hcalls.
    by apply list_elem_of_fmap_2. }
  unfold matched, supplemental_ids. rewrite Hres.
  destruct (score_notes (call_rule cl) noteStats labels) as [[activeNotes add]|] eqn:Hs.
  - destruct (builtin_score _ _ _ _ Hb Hnd Hs) as (H1 & H2 & H3).
    split_and!; try done. destruct add as [a|]; [by rewrite H3|apply NoDup_nil_2].
  - split_and!; [apply NoDup_nil_2..|]. by intros k ?%elem_of_nil.
Qed.

Lemma DefaultRule_call rules st ruleID status dependencies :
  DefaultRule ruleID status dependencies ∈ rules →
  run_rules c noteStats rules initial_state = Done st →
  ∃ cl, cl ∈ calls st ∧ matched cl = note_id <$> noteStats.
Proof.
  intros Hin Hrun.
  destruct (invariant_completed c noteStats rules st Hrun) as [_ Hcalls _ _ _].
  rewrite <-Hcalls in Hin. apply list_elem_of_fmap in Hin as (cl & Hrule & Hcl).
  destruct (calls_are_scores rules st Hrun cl Hcl) as [labels Hres].
  rewrite <-Hrule in Hres. simpl in Hres.
  exists cl. split; [done|]. unfold matched. by rewrite Hres.
Qed.

(** X11: in a completed loop over rules of the three classes of the source,
    on a table with pairwise distinct ids, every rule matched each id at most
    once and only ids of the table, and every supplemental frame has each of
    its ids once. *)
Theorem builtin_rules_match_sets rules st :
  Forall (builtin c tag_filter) rules →
  NoDup (note_id <$> noteStats) →
  run_rules c noteStats rules initial_state = Done st →
  Forall (λ cl, NoDup (matched cl)) (calls st)
  ∧ Forall (λ cl, NoDup (supplemental_ids cl)) (calls st)
  ∧ (∀ cl k, cl ∈ calls st → k ∈ matched cl → k ∈ note_id <$> noteStats).
Proof.
  intros Hrules Hnd Hrun. split_and!.
  - apply Forall_forall. intros cl Hin. by apply (builtin_calls rules st cl).
  - apply Forall_forall. intros cl Hin. by apply (builtin_calls rules st cl).
  - intros cl k Hin. by apply (builtin_calls rules st cl).
Qed.

(** X12: after a completed loop over a rule list that contains a
    [DefaultRule], every input note has a label and an audit entry. *)
Theorem DefaultRule_labels_every_note rules st ruleID status dependencies :
  DefaultRule ruleID status dependencies ∈ rules →
  run_rules c noteStats rules initial_state = Done st →
  ∀ n, n ∈ noteStats →
    note_id n ∈ (noteLabels st).*1 ∧ note_id n ∈ (noteRules st).*1.
Proof.
  intros Hin Hrun n Hn.
  destruct (DefaultRule_call rules st _ _ _ Hin Hrun) as (cl & Hcl & Hm).
  assert (note_id n ∈ matched cl) as Hk by (rewrite Hm; by apply list_elem_of_fmap_2).
  split.
  - apply (labelled_iff_matched c noteStats rules st _ Hrun). by exists cl.
  - apply (noteRules_ids c noteStats st rules _ Hrun). by exists cl.
Qed.

End BuiltinRuns.

Lemma respects_dependencies_from_app prior pre post :
  respects_dependencies_from prior (pre ++ post) = true
  ↔ respects_dependencies_from prior pre = true
    ∧ respects_dependencies_from (prior ∪ list_to_set (get_rule_id <$> pre)) post = true.
Proof.
  revert prior. induction pre as [|rule pre IH]; intros prior; simpl.
  - rewrite union_empty_r_L. tauto.
  - rewrite !andb_true_iff, IH, (assoc_L (∪)). tauto.
Qed.

Section Pipeline.
Context (c : constants) (tag_filter : tag_filter_module) (noteStats : list note).

Lemma plain_builtin rule : plain noteStats rule → builtin c tag_filter rule.
Proof. intros [id s d|id s d f _]; constructor. Qed.

Lemma plain_score rule labels :
  plain noteStats rule → ∃ activeNotes, score_notes rule noteStats labels = Some (activeNotes, None).
Proof.
  intros [id s d|id s d f Hlen]; simpl; [by eexists|].
  unfold loc_mask. rewrite decide_True by done. by eexists.
Qed.

Lemma apply_rule_supplement st rule activeNotes add :
  check_dependencies rule (ruleIDs st) = true →
  get_rule_id rule ∉ ruleIDs st →
  score_notes rule noteStats (noteLabels st) = Some (activeNotes, Some add) →
  id_set activeNotes = id_set (frame_rows add).*1 →
  columns_ok c (noteColumns st) add = true →
  apply_rule c noteStats st rule
  = Done (set_noteColumns (merge_outer (noteColumns st) add)
                          (merged rule activeNotes (Some add) st)).
Proof.
  intros Hd Hf Hs He Hc. unfold apply_rule. rewrite Hd. simpl.
  rewrite bool_decide_eq_false_2 by done. rewrite Hs. simpl.
  rewrite bool_decide_eq_true_2 by done. simpl. by rewrite Hc.
Qed.

(** A loop over plain rules that respect their dependencies and have fresh,
    pairwise distinct identities completes and leaves the supplemental
    columns as they were. *)
Lemma plain_loop_completes rules :
  Forall (plain noteStats) rules →
  ∀ st,
    respects_dependencies_from (ruleIDs st) rules = true →
    NoDup (get_rule_id <$> rules) →
    (∀ rule, rule ∈ rules → get_rule_id rule ∉ ruleIDs st) →
    ∃ st', run_rules c noteStats rules st = Done st'
           ∧ noteColumns st' = noteColumns st
           ∧ ruleIDs st' = ruleIDs st ∪ list_to_set (get_rule_id <$> rules).
Proof.
  induction 1 as [|rule rules Hplain _ IH]; intros st Hresp Hnd Hfresh; simpl in *.
  - exists st. by rewrite union_empty_r_L.
  - apply andb_true_iff in Hresp as [Hdeps Hresp].
    apply NoDup_cons in Hnd as [Hnew Hnd].
    destruct (plain_score rule (noteLabels st) Hplain) as [activeNotes Hscore].
    rewrite (apply_rule_plain c noteStats st rule activeNotes Hdeps); [|by apply Hfresh; left|done].
    destruct (IH (merged rule activeNotes None st)) as (st' & Hrun & Hcols & Hids);
      try done.
    + intros rule' Hin [Hold|Heq%elem_of_singleton]%elem_of_union.
      * apply (Hfresh rule'); [by right|done].
      * apply Hnew. rewrite <-Heq. by apply list_elem_of_fmap_2.
    + exists st'. split_and!; [done|done|]. rewrite Hids. simpl.
      by rewrite (assoc_L (∪)).
Qed.

Lemma columns_ok_first (add : frame) :
  frame_columns add = [activeFilterTagsKey c] →
  columns_ok c {| frame_columns := []; frame_rows := [] |} add = true.
Proof.
  intros Hadd. unfold columns_ok, columns. rewrite Hadd. simpl.
  apply bool_decide_eq_true_2. apply set_eq. intros x.
  rewrite elem_of_intersection, !elem_of_union, !elem_of_singleton.
  split; [intros ->; auto|]. intros [[?|[]%not_elem_of_empty] _]. done.
Qed.

(** X13: a rule list made of [DefaultRule]s and [RuleFromFunction]s (whose
    masks have one entry per row) around one [FilterTagOutliers], containing
    a [DefaultRule], with pairwise distinct identities and respected
    dependencies, returns a table on every note table with pairwise distinct
    ids: no assertion of the engine fails. *)
Theorem builtin_pipeline_completes pre post ruleID status dependencies
    tagRatioPercentile minAdjustedTotal crhSuperThreshold
    defaultID defaultStatus defaultDependencies :
  let tagFilter :=
    FilterTagOutliers c tag_filter ruleID status dependencies tagRatioPercentile
                      minAdjustedTotal crhSuperThreshold in
  let rules := pre ++ tagFilter :: post in
  NoDup (note_id <$> noteStats) →
  Forall (plain noteStats) pre → Forall (plain noteStats) post →
  DefaultRule defaultID defaultStatus defaultDependencies ∈ rules →
  NoDup (get_rule_id <$> rules) →
  respects_dependencies rules = true →
  ∃ out, apply_scoring_rules c noteStats rules = Done out
         ∧ scored_columns out = [activeFilterTagsKey c]
         ∧ sn_note <$> scored_rows out = noteStats.
Proof.
  intros tagFilter rules Hnotes Hpre Hpost Hdefault Hnd Hresp.
  unfold respects_dependencies, rules in Hresp.
  apply respects_dependencies_from_app in Hresp as [Hresp1 Hresp2]. simpl in Hresp2.
  apply andb_true_iff in Hresp2 as [Hdeps Hresp2].
  unfold rules in Hnd. rewrite fmap_app, fmap_cons in Hnd.
  apply NoDup_app in Hnd as (Hnd1 & Hdisj & [Hnew Hnd2]%NoDup_cons).
  (* the rules before the filter *)
  destruct (plain_loop_completes pre Hpre initial_state) as (st1 & Hrun1 & Hcols1 & Hids1);
    [done|done|by intros rule _ ?%not_elem_of_empty|].
  simpl in Hids1, Hcols1.
  (* the filter *)
  pose proof (FilterTagOutliers_score_notes_eq c tag_filter tagRatioPercentile
                minAdjustedTotal crhSuperThreshold noteStats (noteLabels st1)) as Hscore.
  destruct (FilterTagOutliers_frame_ids _ _ _ _ _ _ _ _ _ Hscore) as [Hframe _].
  match type of Hscore with _ = Some (?a, Some ?f) =>
    set (activeNotes := a) in *; set (add := f) in * end.
  set (st2 := set_noteColumns (merge_outer (noteColumns st1) add)
                              (merged tagFilter activeNotes (Some add) st1)).
  assert (apply_rule c noteStats st1 tagFilter = Done st2) as Hstep.
  { apply apply_rule_supplement; [by rewrite Hids1| |done|by rewrite Hframe|].
    - rewrite Hids1, union_empty_l_L, elem_of_list_to_set. intros Hin.
      apply (Hdisj _ Hin). by left.
    - rewrite Hcols1. by apply columns_ok_first. }
  (* the rules after the filter *)
  destruct (plain_loop_completes post Hpost st2) as (st3 & Hrun3 & Hcols3 & _).
  { unfold st2. simpl. rewrite Hids1. exact Hresp2. }
  { done. }
  { intros rule Hin. unfold st2. simpl. rewrite Hids1, union_empty_l_L.
    intros [Hold%elem_of_list_to_set|Heq%elem_of_singleton]%elem_of_union.
    - apply (Hdisj _ Hold). right. by apply list_elem_of_fmap_2.
    - apply Hnew. replace (get_rule_id tagFilter) with (get_rule_id rule) by exact Heq.
      by apply list_elem_of_fmap_2. }
  assert (Hrun : run_rules c noteStats rules initial_state = Done st3).
  { unfold rules. rewrite run_rules_app, Hrun1. simpl. by rewrite Hstep. }
  (* the assertions after the loop *)
  assert (Hbuiltin : Forall (builtin c tag_filter) rules).
  { apply Forall_app. split; [|apply Forall_cons; split].
    - eapply Forall_impl; [done|]. apply plain_builtin.
    - constructor.
    - eapply Forall_impl; [done|]. apply plain_builtin. }
  pose proof (facts_completed c noteStats rules st3 Hrun) as Hfacts.
  destruct (DefaultRule_call c noteStats rules st3 _ _ _ Hdefault Hrun) as (cl0 & Hcl0 & Hm0).
  assert (Hids : ∀ k, k ∈ note_id <$> noteStats ↔ ∃ cl, cl ∈ calls st3 ∧ k ∈ matched cl).
  { intros k. split.
    - intros Hk. exists cl0. by rewrite Hm0.
    - intros (cl & Hcl & Hk).
      by apply (builtin_calls c tag_filter noteStats rules st3 cl Hbuiltin Hnotes Hrun Hcl). }
  destruct (finish_completes c noteStats st3) as [out Hout].
  - by destruct Hfacts.
  - intros k. by rewrite Hids, (labelled_iff_matched c noteStats rules st3 k Hrun).
  - intros k. by rewrite Hids, (noteRules_ids c noteStats st3 rules k Hrun).
  - intros k (cl & Hcl & Hk)%(facts_columns st3 Hfacts). apply Hids. exists cl.
    split; [done|]. by apply (facts_supplemental st3 Hfacts).
  - apply (facts_one_row st3 Hfacts), Forall_forall. intros cl Hcl.
    by apply (builtin_calls c tag_filter noteStats rules st3 cl Hbuiltin Hnotes Hrun Hcl).
  - exists out. unfold apply_scoring_rules. rewrite Hrun. split; [done|].
    destruct (finish_Done c noteStats st3 out) as (Hcols & Hrows & _);
      [by destruct Hfacts|done|].
    split.
    + rewrite Hcols, Hcols3. unfold st2. simpl. by rewrite Hcols1.
    + rewrite Hrows, <-list_fmap_compose. apply list_fmap_id.
Qed.

End Pipeline.

Lemma bind_fmap_length {A B C} (f : A → B → C) (l : list A) (r : list B) :
  length (l ≫= λ a, f a <$> r) = length l * length r.
Proof.
  induction l as [|a l IH]; [done|].
  rewrite bind_cons, length_app, length_fmap, IH. simpl. lia.
Qed.

Lemma or_missing_ge {B} (m : B) (bs : list B) : length bs ≤ length (or_missing m bs).
Proof. destruct bs; simpl; lia. Qed.

(** An outer merge keeps at least the rows each side has for an id. *)
Lemma merge_outer_count (l r : frame) (k : Z) :
  length (rows_with_key k (frame_rows l))
    ≤ length (rows_with_key k (frame_rows (merge_outer l r)))
  ∧ length (rows_with_key k (frame_rows r))
    ≤ length (rows_with_key k (frame_rows (merge_outer l r))).
Proof.
  rewrite merge_outer_rows_with_key. case_decide as Hin.
  - rewrite bind_fmap_length.
    pose proof (or_missing_ge (nan_row (frame_columns l)) (rows_with_key k (frame_rows l))).
    pose proof (or_missing_ge (nan_row (frame_columns r)) (rows_with_key k (frame_rows r))).
    pose proof (or_missing_length (nan_row (frame_columns l)) (rows_with_key k (frame_rows l))).
    pose proof (or_missing_length (nan_row (frame_columns r)) (rows_with_key k (frame_rows r))).
    nia.
  - apply not_elem_of_app in Hin as [Hl Hr].
    rewrite !rows_with_key_absent by done. simpl. lia.
Qed.

Lemma rows_with_key_length {V} (k : Z) (rows : list (Z * V)) :
  length (rows_with_key k rows) = length (filter (λ k', k' = k) rows.*1).
Proof.
  induction rows as [|[k' v] rows IH]; [done|].
  rewrite rows_with_key_cons, fmap_cons, filter_cons. simpl.
  destruct (decide (k' = k)); simpl; by rewrite IH.
Qed.

(** A list of ids that holds an id twice. *)
Lemma not_NoDup_twice (l : list Z) :
  ¬ NoDup l → ∃ k, k ∈ l ∧ 2 ≤ length (filter (λ k', k' = k) l).
Proof.
  induction l as [|a l IH]; intros Hnd; [destruct Hnd; apply NoDup_nil_2|].
  destruct (decide (a ∈ l)) as [Hin|Hn].
  - exists a. split; [by left|]. rewrite filter_cons, decide_True by done. simpl.
    assert (a ∈ filter (λ k', k' = a) l) as Ha by by apply list_elem_of_filter.
    destruct (filter (λ k', k' = a) l); [by apply elem_of_nil in Ha|simpl; lia].
  - destruct IH as (k & Hk & Hlen).
    + intros Hl. apply Hnd. by apply NoDup_cons.
    + exists k. split; [by right|]. rewrite filter_cons.
      destruct (decide (a = k)); simpl; lia.
Qed.

Section FinalAssertions.
Context (c : constants) (noteStats : list note).

Lemma apply_rule_Fatal st rule why st' :
  apply_rule c noteStats st rule = Fatal why st' →
  why = UnmetDependencies ∨ why = RepeatedRuleID ∨ why = ScoreNotesRaised
  ∨ why = SupplementalIdMismatch ∨ why = ColumnCollision.
Proof.
  unfold apply_rule.
  destruct (check_dependencies rule (ruleIDs st)); simpl; [|intros [= <- _]; tauto].
  case_bool_decide; [intros [= <- _]; tauto|].
  destruct (score_notes rule noteStats (noteLabels st)) as [[activeNotes [add|]]|];
    simpl; [| |intros [= <- _]; tauto].
  - destruct (bool_decide _); simpl; [|intros [= <- _]; tauto].
    destruct (columns_ok _ _ _); [done|intros [= <- _]; tauto].
  - done.
Qed.

Lemma run_rules_Fatal rules st why st' :
  run_rules c noteStats rules st = Fatal why st' →
  why = UnmetDependencies ∨ why = RepeatedRuleID ∨ why = ScoreNotesRaised
  ∨ why = SupplementalIdMismatch ∨ why = ColumnCollision.
Proof.
  revert st. induction rules as [|rule rules IH]; intros st; simpl; [done|].
  destruct (apply_rule c noteStats st rule) as [st1|why1 st1] eqn:H1.
  - apply IH.
  - intros [= <- _]. by eapply apply_rule_Fatal.
Qed.

(** The ids the rules of a loop matched, as a set, are the labelled ids. *)
Lemma matched_ids_labelled rules st :
  run_rules c noteStats rules initial_state = Done st →
  id_set (calls st ≫= matched) = id_set (noteLabels st).*1.
Proof.
  intros Hrun. apply id_set_eq_elem_of. intros k.
  rewrite (labelled_iff_matched c noteStats rules st k Hrun), list_elem_of_bind.
  split; intros (cl & ? & ?); by exists cl.
Qed.

(** After a completed loop, the part after the loop either returns, or fails
    at the assertion on the labelled ids, which then differ from the input
    ids, or fails at the assertion on the row count. *)
Lemma finish_Fatal rules st why st' :
  run_rules c noteStats rules initial_state = Done st →
  finish c noteStats st = Fatal why st' →
  (why = LabelsIncomplete
   ∧ id_set (note_id <$> noteStats) ≠ id_set (calls st ≫= matched))
  ∨ why = RowCountMismatch.
Proof.
  intros Hrun. pose proof (facts_completed c noteStats rules st Hrun) as Hfacts.
  unfold finish. simpl.
  case_bool_decide as H1; simpl.
  2:{ intros [= <- _]. left. split; [done|].
      by rewrite (matched_ids_labelled rules st Hrun). }
  case_bool_decide as H2; simpl.
  2:{ destruct H2. rewrite H1. apply id_set_eq_elem_of. intros k.
      rewrite join_column_fst, groupby_aggregate_list_fst, elem_of_group_keys.
      by rewrite (labelled_iff_matched c noteStats rules st k Hrun),
                 (noteRules_ids c noteStats st rules k Hrun). }
  case_bool_decide as H3; simpl.
  2:{ destruct H3. apply size_empty_iff, equiv_empty.
      intros k [Hk Hn]%elem_of_difference. exfalso. apply Hn. rewrite H1.
      unfold id_set in *. rewrite elem_of_list_to_set in Hk. rewrite elem_of_list_to_set.
      apply (facts_columns st Hfacts) in Hk as (cl & Hcl & Hk).
      apply (labelled_iff_matched c noteStats rules st k Hrun). exists cl.
      split; [done|]. by apply (facts_supplemental st Hfacts). }
  case_bool_decide as H4; simpl; [done|]. intros [= <- _]. by right.
Qed.

(** Each call's supplemental frame has, for every id, at most as many rows
    as the merged supplemental columns. *)
Lemma supplemental_rows_kept rules st :
  run_rules c noteStats rules initial_state = Done st →
  ∀ cl k, cl ∈ calls st →
    length (filter (λ k', k' = k) (supplemental_ids cl))
    ≤ length (rows_with_key k (frame_rows (noteColumns st))).
Proof.
  apply (run_rules_invariant c noteStats
           (λ st, ∀ cl k, cl ∈ calls st →
              length (filter (λ k', k' = k) (supplemental_ids cl))
              ≤ length (rows_with_key k (frame_rows (noteColumns st))))).
  - intros st1 rule st2 IH
      (activeNotes & add & _ & _ & Hcalls & _ & _ & Hcols & _)%apply_rule_Done_state cl k.
    rewrite Hcalls, Hcols. intros [Hcl| ->%list_elem_of_singleton]%elem_of_app.
    + specialize (IH cl k Hcl). destruct add as [a|]; [|done].
      pose proof (merge_outer_count (noteColumns st1) a k) as [? _]. lia.
    + unfold supplemental_ids. simpl. destruct add as [a|]; [|simpl; lia].
      rewrite <-rows_with_key_length.
      by pose proof (merge_outer_count (noteColumns st1) a k) as [_ ?].
  - by intros cl k ?%elem_of_nil.
Qed.

(** X14: after a completed loop the run fails at the assertion on the
    labelled ids exactly when the ids the rules matched, as a set, are not
    the ids of the input notes: a note no rule matched, or a matched id
    that is no input id. *)
Theorem unmatched_note_aborts rules st :
  run_rules c noteStats rules initial_state = Done st →
  result_of (apply_scoring_rules c noteStats rules) = inr LabelsIncomplete
  ↔ id_set (note_id <$> noteStats) ≠ id_set (calls st ≫= matched).
Proof.
  intros Hrun. unfold apply_scoring_rules. rewrite Hrun. split.
  - destruct (finish c noteStats st) as [out|why st'] eqn:Hfin; [done|].
    intros [= ->]. by destruct (finish_Fatal rules st _ st' Hrun Hfin) as [[_ ?]|?].
  - intros Hne. unfold finish. simpl. rewrite bool_decide_eq_false_2; [done|].
    by rewrite <-(matched_ids_labelled rules st Hrun).
Qed.

(** X15: a run never fails at the assertion on the ids of [noteRules] nor at
    the assertion on the ids of [noteColumns]: when the assertion on the
    labelled ids passes, both pass. *)
Theorem later_assertions_never_fail rules :
  result_of (apply_scoring_rules c noteStats rules) ≠ inr RulesIncomplete
  ∧ result_of (apply_scoring_rules c noteStats rules) ≠ inr ColumnsOutsideInput.
Proof.
  unfold apply_scoring_rules.
  destruct (run_rules c noteStats rules initial_state) as [st|why st] eqn:Hrun.
  - destruct (finish c noteStats st) as [out|why st'] eqn:Hfin; [done|].
    destruct (finish_Fatal rules st _ st' Hrun Hfin) as [[-> _]| ->]; done.
  - apply run_rules_Fatal in Hrun. simpl.
    by destruct Hrun as [->|[->|[->|[->| ->]]]].
Qed.

(** X16: when the loop completes and the rules matched exactly the input
    ids, a supplemental frame that holds an id twice makes the run fail at
    the assertion on the row count. *)
Theorem duplicated_supplemental_id_aborts rules st :
  run_rules c noteStats rules initial_state = Done st →
  id_set (note_id <$> noteStats) = id_set (calls st ≫= matched) →
  Exists (λ cl, ¬ NoDup (supplemental_ids cl)) (calls st) →
  result_of (apply_scoring_rules c noteStats rules) = inr RowCountMismatch.
Proof.
  intros Hrun Hids (cl & Hcl & (k & Hk & Htwice)%not_NoDup_twice)%Exists_exists.
  pose proof (facts_completed c noteStats rules st Hrun) as Hfacts.
  pose proof (supplemental_rows_kept rules st Hrun cl k Hcl) as Hkept.
  assert (k ∈ note_id <$> noteStats) as (n & -> & Hn)%list_elem_of_fmap.
  { apply (proj2 (proj1 (id_set_eq_elem_of _ _) Hids k)), list_elem_of_bind.
    exists cl. split; [|done]. by apply (facts_supplemental st Hfacts). }
  unfold apply_scoring_rules. rewrite Hrun.
  destruct (finish c noteStats st) as [out|why st'] eqn:Hfin.
  - destruct (finish_Done_columns c noteStats st out) as (_ & _ & Hone);
      [by destruct Hfacts|done|].
    specialize (Hone n Hn). lia.
  - by destruct (finish_Fatal rules st _ st' Hrun Hfin) as [[_ ?]| ->].
Qed.

End FinalAssertions.

(** * The properties on the sample data *)

(** The sample rules complete on the sample notes with the expected table,
    which has the three input rows. *)
Lemma apply_scoring_rules_one_row_per_note_witness :
  length (scored_rows Sample.scoredNotes) = length Sample.noteStats
  ∧ sn_note <$> scored_rows Sample.scoredNotes = Sample.noteStats.
Proof.
  assert (apply_scoring_rules Sample.c Sample.noteStats Sample.rules
          = Done Sample.scoredNotes) as H by (vm_compute; reflexivity).
  destruct (apply_scoring_rules_one_row_per_note Sample.c _ _ _ H) as (H1 & _ & H2 & _).
  refine (conj H1 (proj1 (H2 _))).
  apply (bool_decide_unpack _). vm_compute. exact I.
Defined.

(** A rule list that respects its dependencies and still aborts: the CRH
    rule alone labels note 3 and leaves note 4 (intercept 0.25) without a
    label, so the assertion on the labelled ids fails and no table is
    returned. *)
Lemma apply_scoring_rules_may_abort :
  respects_dependencies [Sample.crhOnly] = true
  ∧ score_notes Sample.crhOnly [Sample.note3; Sample.note4] [] = Some ([3%Z], None)
  ∧ result_of (apply_scoring_rules Sample.c [Sample.note3; Sample.note4] [Sample.crhOnly])
    = inr LabelsIncomplete.
Proof. split_and!; vm_compute; reflexivity. Qed.

(** [generalCRH] requires [INITIAL_NMR]; placed first, the run aborts before
    anything is called. *)
Lemma check_dependencies_aborts_witness :
  apply_scoring_rules Sample.c Sample.noteStats [Sample.generalCRH; Sample.initialNMR]
  = Fatal UnmetDependencies initial_state.
Proof.
  refine (proj1 (proj2 (check_dependencies_aborts Sample.c Sample.noteStats []
            Sample.generalCRH [Sample.initialNMR] INITIAL_NMR _ _) initial_state eq_refl)).
  - apply (bool_decide_unpack _). vm_compute. exact I.
  - apply not_elem_of_nil.
Defined.

(** [badSupplement] matches the three notes and returns a frame for note 3
    only. *)
Lemma supplemental_id_mismatch_aborts_witness :
  ∃ st', apply_scoring_rules Sample.c Sample.noteStats
           [Sample.initialNMR; Sample.badSupplement; Sample.generalCRH]
         = Fatal SupplementalIdMismatch st'
         ∧ noteLabels st' = noteLabels (Sample.state_after [Sample.initialNMR]).
Proof.
  destruct (supplemental_id_mismatch_aborts Sample.c Sample.noteStats
              [Sample.initialNMR] Sample.badSupplement [Sample.generalCRH]
              (Sample.state_after [Sample.initialNMR]) [3; 1; 2]%Z
              {| frame_columns := ["foo"]; frame_rows := [(3%Z, [CellInt 0])] |})
    as (st' & H1 & H2 & _).
  - vm_compute. reflexivity.
  - apply empty_subseteq.
  - apply (bool_decide_unpack _). vm_compute. exact I.
  - vm_compute. reflexivity.
  - apply (bool_decide_unpack _). vm_compute. exact I.
  - exists st'. exact (conj H1 H2).
Defined.

(** After [initialNMR] and [generalCRH], note 3 is CRH and no longer NMR. *)
Lemma noteLabels_last_status_wins_witness :
  (3%Z, "CURRENTLY_RATED_HELPFUL")
    ∈ noteLabels (Sample.state_after [Sample.initialNMR; Sample.generalCRH])
  ∧ ((3%Z, "NEEDS_MORE_RATINGS")
       ∈ noteLabels (Sample.state_after [Sample.initialNMR; Sample.generalCRH])
     ↔ "NEEDS_MORE_RATINGS" = "CURRENTLY_RATED_HELPFUL").
Proof.
  pose proof (proj1 (proj2 (noteLabels_last_status_wins Sample.c Sample.noteStats))
                [Sample.initialNMR] Sample.generalCRH
                (Sample.state_after [Sample.initialNMR])
                (Sample.state_after [Sample.initialNMR; Sample.generalCRH])
                [3; 1; 2]%Z None) as H.
  assert (run_rules Sample.c Sample.noteStats [Sample.initialNMR] initial_state
          = Done (Sample.state_after [Sample.initialNMR])) as H1
    by (vm_compute; reflexivity).
  assert (apply_rule Sample.c Sample.noteStats (Sample.state_after [Sample.initialNMR])
            Sample.generalCRH
          = Done (Sample.state_after [Sample.initialNMR; Sample.generalCRH])) as H2
    by (vm_compute; reflexivity).
  assert (score_notes Sample.generalCRH Sample.noteStats
            (noteLabels (Sample.state_after [Sample.initialNMR]))
          = Some ([3; 1; 2]%Z, None)) as H3 by (vm_compute; reflexivity).
  specialize (H H1 H2 H3). split.
  - apply (H 3%Z "CURRENTLY_RATED_HELPFUL"). reflexivity.
  - exact (H 3%Z "NEEDS_MORE_RATINGS").
Defined.

(** Note 3 triggers on "spam"; note 1 has the same tag statistics, and its
    pair is recorded exactly when 0.625 < 0.5. *)
Lemma FilterTagOutliers_trigger_condition_witness :
  (3%Z, "spam") ∈ impacted_pairs Sample.c Sample.tag_filter 95 2.5 0.5
                    Sample.noteStats Sample.allCRH
  ∧ ((1%Z, "spam") ∈ impacted_pairs Sample.c Sample.tag_filter 95 2.5 0.5
                       Sample.noteStats Sample.allCRH
     ↔ float_gt 5 2.5 = true ∧ float_gt 0.75 0.5 = true ∧ float_lt 0.625 0.5 = true).
Proof.
  assert (NoDup (note_id <$> Sample.noteStats)) as Hnd
    by (apply (bool_decide_unpack _); vm_compute; exact I).
  assert ("spam" ∈ notHelpfulTagsTSVOrder Sample.c) as Htag by apply list_elem_of_here.
  split.
  - apply (proj1 (FilterTagOutliers_trigger_condition Sample.c Sample.tag_filter 95 2.5 0.5
                    Sample.noteStats Sample.allCRH Sample.note3 Hnd
                    (list_elem_of_here _ _) (list_elem_of_here _ _)) "spam" Htag);
      [discriminate..|]. vm_compute. auto.
  - apply (proj1 (FilterTagOutliers_trigger_condition Sample.c Sample.tag_filter 95 2.5 0.5
                    Sample.noteStats Sample.allCRH Sample.note1 Hnd
                    (list_elem_of_further _ _ _ (list_elem_of_here _ _))
                    (list_elem_of_further _ _ _ (list_elem_of_here _ _))) "spam" Htag);
      discriminate.
Defined.

(** On the sample notes, all labelled CRH, the filter matches note 3 with
    the cell "spam,harassment". *)
Lemma FilterTagOutliers_activeFilterTags_witness :
  score_notes Sample.tagFilter Sample.noteStats Sample.allCRH
  = Some ([3%Z], Some Sample.tagColumns)
  ∧ ∃ r, r ∈ Sample.noteStats ∧ note_id r = 3%Z
      ∧ rows_with_key 3 (frame_rows Sample.tagColumns)
        = [[CellStr (String.concat ","
              (triggering_tags Sample.c 2.5 0.5
                 (get_tag_thresholds Sample.tag_filter
                    (crhStats Sample.c Sample.noteStats Sample.allCRH) 95) r))]].
Proof.
  assert (NoDup (note_id <$> Sample.noteStats)) as Hn
    by (apply (bool_decide_unpack _); vm_compute; exact I).
  assert (NoDup Sample.allCRH.*1) as Hl
    by (apply (bool_decide_unpack _); vm_compute; exact I).
  assert (score_notes Sample.tagFilter Sample.noteStats Sample.allCRH
          = Some ([3%Z], Some Sample.tagColumns)) as Hscore
    by (vm_compute; reflexivity).
  split; [exact Hscore|].
  destruct (FilterTagOutliers_activeFilterTags Sample.c Sample.tag_filter 95 2.5 0.5
              Sample.noteStats Sample.allCRH [3%Z] Sample.tagColumns 3%Z Hn Hl Hscore
              (list_elem_of_here _ _))
    as (_ & r & Hr & Hid & _ & Hrow & _).
  exists r. exact (conj Hr (conj Hid Hrow)).
Defined.

(** Two rules that each emit a column "foo". *)
Lemma column_collision_aborts_witness :
  result_of (apply_scoring_rules Sample.c Sample.noteStats
               [Sample.fooRule INITIAL_NMR; Sample.fooRule GENERAL_CRNH; Sample.generalCRH])
  = inr ColumnCollision.
Proof.
  destruct (column_collision_aborts Sample.c Sample.noteStats
              [Sample.fooRule INITIAL_NMR] (Sample.fooRule GENERAL_CRNH)
              [Sample.generalCRH] (Sample.state_after [Sample.fooRule INITIAL_NMR])
              {| call_rule := Sample.fooRule INITIAL_NMR;
                 call_result := score_notes (Sample.fooRule INITIAL_NMR) Sample.noteStats [] |}
              "foo" [3; 1; 2]%Z
              {| frame_columns := ["foo"];
                 frame_rows := [(3%Z, [CellInt 1]); (1%Z, [CellInt 1]); (2%Z, [CellInt 1])] |})
    as [_ H].
  - vm_compute. reflexivity.
  - apply list_elem_of_here.
  - apply list_elem_of_here.
  - apply empty_subseteq.
  - apply (bool_decide_unpack _). vm_compute. exact I.
  - vm_compute. reflexivity.
  - apply (bool_decide_unpack _). vm_compute. exact I.
  - apply list_elem_of_here.
  - discriminate.
  - exact (f_equal result_of H).
Defined.

(** The audit cell of note 3, which all three sample rules matched. *)
Lemma activeRules_audit_witness :
  (∃ row, row ∈ scored_rows Sample.scoredNotes ∧ sn_note row = Sample.note3
      ∧ sn_activeRules row
        = String.concat ","
            (get_name ∘ call_rule
               <$> filter (λ cl, 3%Z ∈ matched cl) (calls (Sample.state_after Sample.rules))))
  ∧ sn_activeRules Sample.first_row
    = "InitialNMR (v1.0),GeneralCRH (v1.0),TagFilter (v1.0)".
Proof.
  assert (apply_scoring_rules Sample.c Sample.noteStats Sample.rules
          = Done Sample.scoredNotes) as H by (vm_compute; reflexivity).
  assert (run_rules Sample.c Sample.noteStats Sample.rules initial_state
          = Done (Sample.state_after Sample.rules)) as Hrun by (vm_compute; reflexivity).
  assert (Forall (λ cl, NoDup (matched cl)) (calls (Sample.state_after Sample.rules)))
    as Hnd by (apply (bool_decide_unpack _); vm_compute; exact I).
  assert (Sample.first_row ∈ scored_rows Sample.scoredNotes) as Hrow
    by apply list_elem_of_here.
  destruct (activeRules_audit Sample.c Sample.noteStats Sample.rules Sample.scoredNotes
              (Sample.state_after Sample.rules) H Hrun Hnd) as (_ & _ & Hnote & Haudit).
  split; [exact (Hnote Sample.note3 (list_elem_of_here _ _))|].
  rewrite (proj2 (Haudit Sample.first_row Hrow)). vm_compute. reflexivity.
Defined.

(** ** Instances of the further properties on the sample data *)

(** [initialNMR] listed twice. *)
Lemma repeated_rule_id_aborts_witness :
  apply_scoring_rules Sample.c Sample.noteStats
    [Sample.initialNMR; Sample.initialNMR; Sample.generalCRH]
  = Fatal RepeatedRuleID (Sample.state_after [Sample.initialNMR])
  ∧ call_rule <$> calls (Sample.state_after [Sample.initialNMR]) = [Sample.initialNMR].
Proof.
  apply (repeated_rule_id_aborts Sample.c Sample.noteStats [Sample.initialNMR]
           Sample.initialNMR [Sample.generalCRH] (Sample.state_after [Sample.initialNMR])).
  - vm_compute. reflexivity.
  - apply empty_subseteq.
  - apply list_elem_of_here.
Defined.

Lemma completed_run_rule_contract_witness :
  NoDup (get_rule_id <$> Sample.rules)
  ∧ respects_dependencies Sample.rules = true
  ∧ NoDup (get_name <$> Sample.rules).
Proof.
  apply (completed_run_rule_contract Sample.c Sample.noteStats Sample.rules
           Sample.scoredNotes).
  vm_compute. reflexivity.
Defined.

(** Note 3 was matched by some rule of the sample run. *)
Lemma completed_run_matches_are_input_ids_witness :
  ∃ cl, cl ∈ calls (Sample.state_after Sample.rules) ∧ 3%Z ∈ matched cl.
Proof.
  refine (proj1 (completed_run_matches_are_input_ids Sample.c Sample.noteStats Sample.rules
                   Sample.scoredNotes (Sample.state_after Sample.rules) _ _)
            Sample.note3 (list_elem_of_here _ _)).
  - vm_compute. reflexivity.
  - vm_compute. reflexivity.
Defined.

(** The last rule that matched note 3 is the tag filter. *)
Lemma final_status_is_last_match_witness :
  status_of_calls 3 (calls (Sample.state_after Sample.rules)) = Some "NEEDS_MORE_RATINGS".
Proof.
  refine (final_status_is_last_match Sample.c Sample.noteStats Sample.rules
            Sample.scoredNotes (Sample.state_after Sample.rules) _ _
            Sample.first_row (list_elem_of_here _ _)).
  - vm_compute. reflexivity.
  - vm_compute. reflexivity.
Defined.



(** On the sample notes, all labelled CRH, the filter matches note 3 only
    and holds it once. *)
Lemma FilterTagOutliers_matched_notes_witness :
  (frame_rows Sample.tagColumns).*1 = [3%Z] ∧ NoDup [3%Z].
Proof.
  refine (let H := FilterTagOutliers_matched_notes Sample.c Sample.tag_filter 95 2.5 0.5
                     Sample.noteStats Sample.allCRH [3%Z] Sample.tagColumns _ in
          conj (proj1 (proj2 H)) (proj1 (proj2 (proj2 H)))).
  vm_compute. reflexivity.
Defined.

(** With a NaN super threshold the filter matches no note. *)
Lemma FilterTagOutliers_NaN_witness :
  PrimFloat.is_nan PrimFloat.nan = true
  ∧ ∃ activeNotes add,
      FilterTagOutliers_score_notes Sample.c Sample.tag_filter 95 2.5 PrimFloat.nan
        Sample.noteStats Sample.allCRH
      = Some (activeNotes, add)
      ∧ activeNotes = [].
Proof.
  assert (FilterTagOutliers_score_notes Sample.c Sample.tag_filter 95 2.5 PrimFloat.nan
            Sample.noteStats Sample.allCRH
          = Some ([], Some {| frame_columns := ["activeFilterTags"]; frame_rows := [] |}))
    as Hscore by (vm_compute; reflexivity).
  split; [reflexivity|]. eexists _, _. split; [exact Hscore|].
  apply (proj1 (FilterTagOutliers_NaN Sample.c Sample.tag_filter 95 2.5 PrimFloat.nan
                  Sample.noteStats Sample.allCRH _ _ Hscore)).
  left. reflexivity.
Defined.

(** The three sample rules are of the three classes of the source. *)
Lemma builtin_rules_match_sets_witness :
  Forall (λ cl, NoDup (matched cl)) (calls (Sample.state_after Sample.rules))
  ∧ Forall (λ cl, NoDup (supplemental_ids cl)) (calls (Sample.state_after Sample.rules)).
Proof.
  refine (let H := builtin_rules_match_sets Sample.c Sample.tag_filter Sample.noteStats
                     Sample.rules (Sample.state_after Sample.rules) _ _ _ in
          conj (proj1 H) (proj1 (proj2 H))).
  - repeat apply Forall_cons_2; [..|apply Forall_nil_2].
    + exact (builtin_DefaultRule _ _ _ _ _).
    + exact (builtin_RuleFromFunction _ _ _ _ _ _).
    + exact (builtin_FilterTagOutliers _ _ _ _ _ _ _ _).
  - apply (bool_decide_unpack _). vm_compute. exact I.
  - vm_compute. reflexivity.
Defined.

(** [initialNMR] is a [DefaultRule]: note 2, which the tag filter leaves
    alone, has a label and an audit entry. *)
Lemma DefaultRule_labels_every_note_witness :
  2%Z ∈ (noteLabels (Sample.state_after Sample.rules)).*1
  ∧ 2%Z ∈ (noteRules (Sample.state_after Sample.rules)).*1.
Proof.
  refine (DefaultRule_labels_every_note Sample.c Sample.noteStats Sample.rules
            (Sample.state_after Sample.rules) INITIAL_NMR "NEEDS_MORE_RATINGS" ∅ _ _
            Sample.note2 _).
  - apply list_elem_of_here.
  - vm_compute. reflexivity.
  - apply list_elem_of_further, list_elem_of_further, list_elem_of_here.
Defined.

(** The sample rule list is the default rule and the CRH rule followed by
    the tag filter. *)
Lemma builtin_pipeline_completes_witness :
  ∃ out, apply_scoring_rules Sample.c Sample.noteStats Sample.rules = Done out
         ∧ scored_columns out = ["activeFilterTags"]
         ∧ sn_note <$> scored_rows out = Sample.noteStats.
Proof.
  refine (builtin_pipeline_completes Sample.c Sample.tag_filter Sample.noteStats
            [Sample.initialNMR; Sample.generalCRH] [] TAG_OUTLIER "NEEDS_MORE_RATINGS"
            {[GENERAL_CRH]} 95 2.5 0.5 INITIAL_NMR "NEEDS_MORE_RATINGS" ∅ _ _ _ _ _ _).
  - apply (bool_decide_unpack _). vm_compute. exact I.
  - repeat apply Forall_cons_2; [..|apply Forall_nil_2].
    + exact (plain_DefaultRule _ _ _ _).
    + refine (plain_RuleFromFunction _ _ _ _ _ _). reflexivity.
  - apply Forall_nil_2.
  - apply list_elem_of_here.
  - apply (bool_decide_unpack _). vm_compute. exact I.
  - vm_compute. reflexivity.
Defined.

(** The CRH rule alone on notes 3 and 4 matches note 3 only. *)
Lemma unmatched_note_aborts_witness :
  result_of (apply_scoring_rules Sample.c [Sample.note3; Sample.note4] [Sample.crhOnly])
  = inr LabelsIncomplete.
Proof.
  refine (proj2 (unmatched_note_aborts Sample.c [Sample.note3; Sample.note4]
                   [Sample.crhOnly]
                   (last_state (run_rules Sample.c [Sample.note3; Sample.note4]
                                  [Sample.crhOnly] initial_state)) _) _).
  - vm_compute. reflexivity.
  - apply (bool_decide_unpack _). vm_compute. exact I.
Defined.

(** [twiceRule] returns two rows for every note. *)
Lemma duplicated_supplemental_id_aborts_witness :
  result_of (apply_scoring_rules Sample.c Sample.noteStats
               [Sample.initialNMR; Sample.twiceRule])
  = inr RowCountMismatch.
Proof.
  refine (duplicated_supplemental_id_aborts Sample.c Sample.noteStats
            [Sample.initialNMR; Sample.twiceRule]
            (Sample.state_after [Sample.initialNMR; Sample.twiceRule]) _ _ _).
  - vm_compute. reflexivity.
  - apply (bool_decide_unpack _). vm_compute. exact I.
  - apply (bool_decide_unpack _). vm_compute. exact I.
Defined.
